(** * Nim and its tabular Q-learning agent (nim.py)

    A shallow embedding of the two classes of [nim.py]:

    - [Nim]: the game engine (piles, player to move, winner);
    - [NimAI]: the Q-learner (a table from (state, action) to a value,
      a learning rate [alpha] and an exploration rate [epsilon]);
    - [train]: the self-play loop that fills the table of a learner.

    Python objects are mutated in place and methods may raise, so every
    method is a computation in a state-and-exception monad over the
    object it is called on: it returns either the exception raised or
    the value returned, together with the object as the call leaves it.

    Numbers: pile sizes, pile indices and counts are Python integers
    ([Z]).  Q-values, rewards and the two rates are the real-valued
    quantities of the learner; they are modelled by the exact rationals
    [Qc], on which [>] and [==] are decidable, and [float("-inf")] by a
    bottom element added to them ([NegInf]). *)

From Stdlib Require Import ZArith QArith Qcanon String.
From stdpp Require Import base decidable option list numbers gmap strings pretty.

Local Open Scope Z_scope.

(** ** Exceptions and the state-and-exception monad *)

Inductive exn : Type :=
| Exception (msg : string)   (* raise Exception(msg) *)
| IndexError                 (* subscript or random.choice out of range *)
| ValueError.                (* max() of an empty iterable *)

Definition M (S A : Type) : Type := S → (exn + A) * S.

Definition ret {S A} (a : A) : M S A := λ s, (inr a, s).

Definition bind {S A B} (m : M S A) (k : A → M S B) : M S B :=
  λ s, match m s with
       | (inl e, s') => (inl e, s')
       | (inr a, s') => k a s'
       end.

Definition raise {S A} (e : exn) : M S A := λ s, (inl e, s).
Definition get {S} : M S S := λ s, (inr s, s).
Definition put {S} (s : S) : M S unit := λ _, (inr tt, s).

(** A pure computation that may raise, run inside a method. *)
Definition lift {S A} (r : exn + A) : M S A := λ s, (r, s).

Notation "'let!' x ':=' m 'in' k" := (bind m (λ x, k))
  (at level 10, x name, m at level 100, k at level 200, only parsing).
Notation "'do!' m 'in' k" := (bind m (λ _, k))
  (at level 10, m at level 100, k at level 200, only parsing).

(** ** Python sequences and builtins used by the program *)

(** [l[i]] on a list: negative subscripts count from the end, anything
    outside the list raises. *)
Definition getitem (l : list Z) (i : Z) : exn + Z :=
  let n := Z.of_nat (length l) in
  let k := if i <? 0 then i + n else i in
  if (0 <=? k) && (k <? n) then
    match l !! Z.to_nat k with
    | Some v => inr v
    | None => inl IndexError
    end
  else inl IndexError.

(** [l[i] = v] for a subscript already known to be in range. *)
Definition setitem (l : list Z) (i : Z) (v : Z) : list Z :=
  let n := Z.of_nat (length l) in
  let k := if i <? 0 then i + n else i in
  <[Z.to_nat k := v]> l.

(** [enumerate(l)] and [range(a, b)]. *)
Definition enumerate (l : list Z) : list (Z * Z) :=
  imap (λ i x, (Z.of_nat i, x)) l.

Definition range (a b : Z) : list Z := seqZ a (b - a).

(** An action [(i, j)]: take [j] objects from pile [i]. *)
Abbreviation action := (Z * Z)%type.

(** ** class Nim *)

Module Nim.

Record t : Type := mk {
  piles : list Z;
  player : Z;
  winner : option Z
}.

(** [Nim(initial)]: the board is a copy of [initial]. *)
Definition init (initial : list Z) : t :=
  {| piles := initial; player := 0; winner := None |}.

(** [Nim()] with the default argument. *)
Definition new : t := init [1; 3; 5; 7].

(** The two nested loops that fill the set [actions]. *)
Definition available_actions (piles : list Z) : gset action :=
  foldl (λ actions '(i, pile),
           foldl (λ actions j, actions ∪ {[ (i, j) ]})
                 actions (range 1 (pile + 1)))
        ∅ (enumerate piles).

Definition other_player (player : Z) : Z :=
  if player =? 1 then 0 else 1.

Definition switch_player : M t unit :=
  let! self := get in
  put {| piles := piles self;
         player := other_player (player self);
         winner := winner self |}.

Definition set_piles (l : list Z) : M t unit :=
  let! self := get in
  put {| piles := l; player := player self; winner := winner self |}.

Definition set_winner (w : Z) : M t unit :=
  let! self := get in
  put {| piles := piles self; player := player self; winner := Some w |}.

Definition all_zero (l : list Z) : bool :=
  forallb (λ pile, pile =? 0) l.

Definition move (a : action) : M t unit :=
  let '(pile, count) := a in
  let! self := get in
  if bool_decide (winner self ≠ None) then
    raise (Exception "Game already won")
  else if (pile <? 0) || (pile >=? Z.of_nat (length (piles self))) then
    raise (Exception "Invalid pile")
  else
    let! n := lift (getitem (piles self) pile) in
    if (count <? 1) || (count >? n) then
      raise (Exception "Invalid number of objects")
    else
      (* self.piles[pile] -= count *)
      let! cur := lift (getitem (piles self) pile) in
      do! set_piles (setitem (piles self) pile (cur - count)) in
      do! switch_player in
      let! self := get in
      if all_zero (piles self) then set_winner (player self)
      else ret tt.

End Nim.


(** ** Values of the learner *)

(** A state handed to the learner is a Python sequence of pile sizes:
    a list (an object with an identity, here its address) or a tuple. *)
Inductive pyseq : Type :=
| PyList (addr : nat) (elts : list Z)
| PyTuple (elts : list Z).

Definition items (s : pyseq) : list Z :=
  match s with
  | PyList _ l => l
  | PyTuple l => l
  end.

(** [tuple(state)]: the immutable key, compared and hashed by value. *)
Definition tuple (s : pyseq) : list Z := items s.

(** [max_q] starts at [float("-inf")], below every Q-value. *)
Inductive bound : Type :=
| NegInf
| Fin (v : Qc).

(** [q_val > max_q] and [q_val == max_q]. *)
Definition gt_bound (q_val : Qc) (max_q : bound) : bool :=
  match max_q with
  | NegInf => true
  | Fin m => bool_decide (m < q_val)%Qc
  end.

Definition eq_bound (q_val : Qc) (max_q : bound) : bool :=
  match max_q with
  | NegInf => false
  | Fin m => bool_decide (q_val = m)
  end.

(** [max(iterable)]: the first largest item; raises on an empty one. *)
Definition py_max (l : list Qc) : exn + Qc :=
  match l with
  | [] => inl ValueError
  | x :: l' =>
      inr (foldl (λ maxitem item,
                    if bool_decide (maxitem < item)%Qc then item else maxitem)
                 x l')
  end.

(** Iterating over a Python set visits each element once, in an order
    the language leaves open: any enumeration of the set will do. *)
Class SetIter : Type := {
  set_iter : gset action → list action;
  set_iter_perm : ∀ X, set_iter X ≡ₚ elements X
}.

(** The module [random]: what [random.random()] returns, and the index
    that [random.choice] draws for a sequence of a given length. *)
Record rand : Type := {
  random : Qc;
  randbelow : nat → nat
}.

Definition choice {A} (r : rand) (l : list A) : exn + A :=
  match l with
  | [] => inl IndexError
  | _ :: _ =>
      match l !! (randbelow r (length l) `mod` length l)%nat with
      | Some x => inr x
      | None => inl IndexError
      end
  end.

(** [for x in l: body], threading the loop variables [acc]. *)
Fixpoint for_each {S A B} (l : list A) (body : B → A → M S B) (acc : B)
  : M S B :=
  match l with
  | [] => ret acc
  | x :: l' => let! acc' := body acc x in for_each l' body acc'
  end.

(** [f(x) for x in l], evaluated left to right. *)
Fixpoint map_each {S A B} (f : A → M S B) (l : list A) : M S (list B) :=
  match l with
  | [] => ret []
  | x :: l' =>
      let! y := f x in
      let! ys := map_each f l' in
      ret (y :: ys)
  end.

(** ** class NimAI *)

Module NimAI.
Section NimAI.

Context `{SetIter}.

Record t : Type := mk {
  q : gmap (list Z * action) Qc;
  alpha : Qc;
  epsilon : Qc
}.

Definition init (alpha epsilon : Qc) : t :=
  {| q := ∅; alpha := alpha; epsilon := epsilon |}.

(** [NimAI()] with the default arguments 0.5 and 0.1. *)
Definition new : t := init (Q2Qc (1 # 2)) (Q2Qc (1 # 10)).

(** The entry of the table for [(state, a)], 0 when there is none. *)
Definition q_value (self : t) (state : pyseq) (a : action) : Qc :=
  default 0%Qc (q self !! (tuple state, a)).

Definition get_q_value (state : pyseq) (a : action) : M t Qc :=
  let state := tuple state in
  let! self := get in
  ret (default 0%Qc (q self !! (state, a))).

Definition update_q_value (state : pyseq) (a : action)
    (old_q reward future_rewards : Qc) : M t unit :=
  let new_estimate := (reward + future_rewards)%Qc in
  let state := tuple state in
  let! self := get in
  put {| q := <[(state, a) :=
                 (old_q + alpha self * (new_estimate - old_q))%Qc]> (q self);
         alpha := alpha self;
         epsilon := epsilon self |}.

Definition best_future_reward (state : pyseq) : M t Qc :=
  let actions := Nim.available_actions (items state) in
  if bool_decide (actions = ∅) then ret 0%Qc
  else
    let! values := map_each (get_q_value state) (set_iter actions) in
    lift (py_max values).

Definition update (old_state : pyseq) (a : action) (new_state : pyseq)
    (reward : Qc) : M t unit :=
  let! old := get_q_value old_state a in
  let! best_future := best_future_reward new_state in
  update_q_value old_state a old reward best_future.

Definition choose_action (r : rand) (state : pyseq) (explore : bool)
  : M t (option action) :=
  let actions := set_iter (Nim.available_actions (items state)) in
  if bool_decide (actions = []) then ret None
  else
    let! self := get in
    if explore && bool_decide (random r < epsilon self)%Qc then
      let! a := lift (choice r actions) in
      ret (Some a)
    else
      let! best :=
        for_each actions
          (λ '(max_q, best_actions) a,
             let! q_val := get_q_value state a in
             if gt_bound q_val max_q then ret (Fin q_val, [a])
             else if eq_bound q_val max_q then
               ret (max_q, best_actions ++ [a])
             else ret (max_q, best_actions))
          (NegInf, []) in
      let! a := lift (choice r best.2) in
      ret (Some a).

End NimAI.
End NimAI.


(** [elements], stdpp's own enumeration, is one iteration order. *)
Definition elements_order : SetIter :=
  {| set_iter := elements; set_iter_perm := λ X, reflexivity (elements X) |}.

(** A call [update(old_state, action, new_state, reward)], and a
    sequence of such calls made one after the other on one learner. *)
Record update_call : Type := {
  call_state : pyseq;
  call_action : action;
  call_new_state : pyseq;
  call_reward : Qc
}.

Definition run_updates `{SetIter} (calls : list update_call) : M NimAI.t unit :=
  for_each calls
    (λ _ c, NimAI.update (call_state c) (call_action c)
                         (call_new_state c) (call_reward c))
    tt.

(** What the greedy loop of [choose_action] holds after the actions
    [seen]: the largest value met so far and the actions that have it. *)
Definition best_so_far (ai : NimAI.t) (state : pyseq) (seen : list action)
    (acc : bound * list action) : Prop :=
  match acc.1 with
  | NegInf => seen = [] ∧ acc.2 = []
  | Fin m =>
      acc.2 ≠ []
      ∧ (∀ a, a ∈ acc.2 → a ∈ seen ∧ NimAI.q_value ai state a = m)
      ∧ (∀ b, b ∈ seen → (NimAI.q_value ai state b ≤ m)%Qc)
  end.

(** One turn of the greedy loop of [choose_action], on the values [f]
    the table gives to the actions. *)
Definition keep_best (f : action → Qc) (acc : bound * list action)
    (a : action) : bound * list action :=
  if gt_bound (f a) acc.1 then (Fin (f a), [a])
  else if eq_bound (f a) acc.1 then (acc.1, acc.2 ++ [a])
  else acc.

(** What the fold holds after the actions [seen]: the largest value
    among them, and all the actions that have it, in order. *)
Definition ties_so_far (f : action → Qc) (seen : list action)
    (acc : bound * list action) : Prop :=
  match acc.1 with
  | NegInf => seen = [] ∧ acc.2 = []
  | Fin m =>
      (∃ a, a ∈ seen ∧ f a = m)
      ∧ (∀ b, b ∈ seen → (f b ≤ m)%Qc)
      ∧ acc.2 = filter (λ a, f a = m) seen
  end.

(** ** Game play *)

(** The sum of all piles: the number of objects on the board. *)
Definition total (l : list Z) : Z := foldr Z.add 0 l.

(** A sequence of moves applied one after the other, stopping at the
    first one that raises. *)
Definition run_moves (acts : list action) : M Nim.t unit :=
  for_each acts (λ _ a, Nim.move a) tt.

(** The game loop shared by [train] and [play]:
    [while True: action = ...; game.move(action);
                 if game.winner is not None: break],
    with the choice of the action left to [policy].  It returns the
    number of moves made, or [None] when [fuel] iterations were not
    enough to reach the [break]. *)
Fixpoint episode (fuel : nat) (policy : list Z → action) : M Nim.t (option nat) :=
  match fuel with
  | O => ret None
  | S fuel' =>
      let! game := get in
      do! Nim.move (policy (Nim.piles game)) in
      let! game := get in
      if bool_decide (Nim.winner game ≠ None) then ret (Some 1%nat)
      else
        let! n := episode fuel' policy in
        ret (S <$> n)
  end.

(** The board a successful move of [count] objects from a pile of [n]
    leaves behind (see [move_ok] for the link with [Nim.move]). *)
Definition moved (g : Nim.t) (pile n count : Z) : Nim.t :=
  let l := <[Z.to_nat pile := n - count]> (Nim.piles g) in
  {| Nim.piles := l;
     Nim.player := Nim.other_player (Nim.player g);
     Nim.winner := if Nim.all_zero l
                   then Some (Nim.other_player (Nim.player g)) else None |}.

(** A policy that only ever answers with a legal action. *)
Definition legal_policy (policy : list Z → action) : Prop :=
  ∀ l, Nim.available_actions l ≠ ∅ → policy l ∈ Nim.available_actions l.

(** A legal policy: the first action [elements] lists. *)
Definition first_action (l : list Z) : action :=
  default (0, 0) (head (elements (Nim.available_actions l))).

(** ** def train *)

(** What a call of [train] can raise: an exception raised by one of
    the two classes, or one raised by the interpreter itself. *)
Inductive error : Type :=
| Raised (e : exn)
| TypeError        (* unpacking None, tuple(None) *)
| KeyError.        (* subscript of a dict with a missing key *)

Module Train.
Section Train.

Context `{SetIter}.

(** The module [random] as [train] sees it: the [i]-th call of
    [choose_action] gets the draws [draws i]. *)
Variable draws : nat → rand.

(** The local variables of [train], the lines printed so far and the
    number of calls of [choose_action] made so far. *)
Record frame : Type := mk {
  player : NimAI.t;
  game : Nim.t;
  last : gmap Z (option (pyseq * action));
  stdout : list string;
  calls : nat
}.

Definition set_player (ai : NimAI.t) (st : frame) : frame :=
  {| player := ai; game := game st; last := last st;
     stdout := stdout st; calls := calls st |}.

Definition set_game (g : Nim.t) (st : frame) : frame :=
  {| player := player st; game := g; last := last st;
     stdout := stdout st; calls := calls st |}.

Definition set_last (d : gmap Z (option (pyseq * action))) (st : frame) : frame :=
  {| player := player st; game := game st; last := d;
     stdout := stdout st; calls := calls st |}.

Definition set_stdout (out : list string) (st : frame) : frame :=
  {| player := player st; game := game st; last := last st;
     stdout := out; calls := calls st |}.

Definition set_calls (n : nat) (st : frame) : frame :=
  {| player := player st; game := game st; last := last st;
     stdout := stdout st; calls := n |}.

Definition T (A : Type) : Type := frame → (error + A) * frame.

Definition tret {A} (a : A) : T A := λ st, (inr a, st).

Definition tbind {A B} (m : T A) (k : A → T B) : T B :=
  λ st, match m st with
        | (inl e, st') => (inl e, st')
        | (inr a, st') => k a st'
        end.

Definition traise {A} (e : error) : T A := λ st, (inl e, st).
Definition locals : T frame := λ st, (inr st, st).

Local Notation "'let*' x ':=' m 'in' k" := (tbind m (λ x, k))
  (at level 10, x name, m at level 100, k at level 200, only parsing).
Local Notation "'do*' m 'in' k" := (tbind m (λ _, k))
  (at level 10, m at level 100, k at level 200, only parsing).

(** A method called on the learner or on the game. *)
Definition on_player {A} (m : M NimAI.t A) : T A :=
  λ st, let '(res, ai) := m (player st) in
        (match res with inl e => inl (Raised e) | inr a => inr a end,
         set_player ai st).

Definition on_game {A} (m : M Nim.t A) : T A :=
  λ st, let '(res, g) := m (game st) in
        (match res with inl e => inl (Raised e) | inr a => inr a end,
         set_game g st).

Definition assign_player (ai : NimAI.t) : T unit :=
  λ st, (inr (), set_player ai st).

Definition assign_game (g : Nim.t) : T unit :=
  λ st, (inr (), set_game g st).

Definition assign_last (d : gmap Z (option (pyseq * action))) : T unit :=
  λ st, (inr (), set_last d st).

Definition print (line : string) : T unit :=
  λ st, (inr (), set_stdout (stdout st ++ [line]) st).

(** [last[p]], read. *)
Definition getitem_last (p : Z) : T (option (pyseq * action)) :=
  let* st := locals in
  match last st !! p with
  | Some slot => tret slot
  | None => traise KeyError
  end.

(** [last[p]["state"] = state; last[p]["action"] = a]. *)
Definition setitem_last (p : Z) (state : pyseq) (a : action) : T unit :=
  do* getitem_last p in
  let* st := locals in
  assign_last (<[p := Some (state, a)]> (last st)).

(** [player.choose_action(state)], with the next draws. *)
Definition choose (state : pyseq) (explore : bool) : T (option action) :=
  λ st, on_player (NimAI.choose_action (draws (calls st)) state explore)
                  (set_calls (S (calls st)) st).

(** The [while True] loop that plays one game; [None] when [fuel]
    iterations did not reach the [break].  The lists made by
    [game.piles.copy()] get addresses of their own. *)
Fixpoint game_loop (fuel : nat) : T (option unit) :=
  match fuel with
  | O => tret None
  | S fuel' =>
      let* st := locals in
      let state := PyList (2 * calls st + 1) (Nim.piles (game st)) in
      let* chosen := choose (PyList 0 (Nim.piles (game st))) true in
      do* getitem_last (Nim.player (game st)) in
      match chosen with
      | None =>
          (* last[...]["action"] = None, then game.move(None) fails to
             unpack it *)
          traise TypeError
      | Some a =>
          do* setitem_last (Nim.player (game st)) state a in
          do* on_game (Nim.move a) in
          let* st := locals in
          let new_state := PyList (2 * calls st) (Nim.piles (game st)) in
          if bool_decide (Nim.winner (game st) ≠ None) then
            do* on_player (NimAI.update state a new_state (-1)%Qc) in
            let* slot := getitem_last (Nim.player (game st)) in
            match slot with
            | None => traise TypeError          (* tuple(None) *)
            | Some (s, b) =>
                do* on_player (NimAI.update s b new_state 1%Qc) in
                tret (Some ())
            end
          else
            let* slot := getitem_last (Nim.player (game st)) in
            do* match slot with
                | None => tret ()
                | Some (s, b) => on_player (NimAI.update s b new_state 0%Qc)
                end in
            game_loop fuel'
      end
  end.

(** [for i in range(n)], over the indices left. *)
Fixpoint for_games (fuel : nat) (indices : list Z) : T (option unit) :=
  match indices with
  | [] => tret (Some ())
  | i :: rest =>
      do* print ("Playing training game " +:+ pretty (i + 1)) in
      do* assign_game Nim.new in
      do* assign_last {[ 0 := None; 1 := None ]} in
      let* finished := game_loop fuel in
      match finished with
      | None => tret None
      | Some _ => for_games fuel rest
      end
  end.

Definition train (fuel : nat) (n : Z) : T (option NimAI.t) :=
  do* assign_player NimAI.new in
  let* finished := for_games fuel (range 0 n) in
  match finished with
  | None => tret None
  | Some _ =>
      do* print "Done training" in
      let* st := locals in
      tret (Some (player st))
  end.

End Train.
End Train.

(** The boards of a game started with [Nim()]: four piles, each
    between 0 and its initial size. *)
Definition on_board (l : list Z) : Prop :=
  Forall2 (λ x b, 0 ≤ x ≤ b) l (Nim.piles Nim.new).

(** What [train] keeps of its learner: the two rates of [NimAI()],
    values between -1 and 1, and keys made of a board and an action
    that is legal on it. *)
Definition trained (ai : NimAI.t) : Prop :=
  NimAI.alpha ai = NimAI.alpha NimAI.new
  ∧ NimAI.epsilon ai = NimAI.epsilon NimAI.new
  ∧ (∀ k v, NimAI.q ai !! k = Some v → (-1 ≤ v)%Qc ∧ (v ≤ 1)%Qc)
  ∧ (∀ s a, is_Some (NimAI.q ai !! (s, a)) →
            on_board s ∧ a ∈ Nim.available_actions s).

Definition good_slot (slot : option (pyseq * action)) : Prop :=
  ∀ s a, slot = Some (s, a) →
         on_board (items s) ∧ a ∈ Nim.available_actions (items s).

(** What holds of the locals of [train] each time the [while] loop
    starts an iteration. *)
Definition at_loop_head (st : Train.frame) : Prop :=
  Nim.winner (Train.game st) = None
  ∧ on_board (Nim.piles (Train.game st))
  ∧ 0 < total (Nim.piles (Train.game st))
  ∧ (Nim.player (Train.game st) = 0 ∨ Nim.player (Train.game st) = 1)
  ∧ (∀ p, p = 0 ∨ p = 1 →
          ∃ slot, Train.last st !! p = Some slot ∧ good_slot slot)
  ∧ (Train.last st !! Nim.other_player (Nim.player (Train.game st)) = Some None →
     Nim.piles (Train.game st) = Nim.piles Nim.new)
  ∧ trained (Train.player st)
  ∧ (∀ s b,
       Train.last st !! Nim.other_player (Nim.player (Train.game st))
       = Some (Some (s, b)) →
       ∃ n, items s !! Z.to_nat b.1 = Some n
            ∧ Nim.piles (Train.game st) = <[Z.to_nat b.1 := n - b.2]> (items s)).

(** A table whose values are all 0, and the table one game of [train]
    makes of it: -1/2 for the move [(s, a)] that emptied the board, 1/2
    for the move [(s', b)] that led to the board [s], 0 elsewhere. *)
Definition zero_table (table : gmap (list Z * action) Qc) : Prop :=
  ∀ key v, table !! key = Some v → v = 0%Qc.

Definition first_game_table (table : gmap (list Z * action) Qc) : Prop :=
  ∃ s a s' b table0,
    zero_table table0
    ∧ table = <[(s', b) := Q2Qc (1 # 2)]> (<[(s, a) := Q2Qc (-1 # 2)]> table0)
    ∧ a ∈ Nim.available_actions s ∧ total s = a.2
    ∧ b ∈ Nim.available_actions s'
    ∧ ∃ n, s' !! Z.to_nat b.1 = Some n ∧ s = <[Z.to_nat b.1 := n - b.2]> s'.

(** The two kinds of error the engine reports. *)
Definition InvalidState (e : exn) : Prop :=
  e = Exception "Game already won".

Definition InvalidAction (e : exn) : Prop :=
  e = Exception "Invalid pile" ∨ e = Exception "Invalid number of objects".

(** * Properties of the game engine *)

(** The scenarios of the specification, run on the model. *)
Example available_actions_last_object :
  Nim.available_actions [0; 0; 0; 1] = {[ (3, 1) ]}.
Proof. by vm_compute. Qed.

Example elements_of_default_board :
  length (elements (Nim.available_actions (Nim.piles Nim.new))) = 16%nat.
Proof. by vm_compute. Qed.

Example move_on_finished_game :
  run_moves [(3, 1); (0, 1)] (Nim.init [0; 0; 0; 1])
  = (inl (Exception "Game already won"),
     {| Nim.piles := [0; 0; 0; 0]; Nim.player := 1; Nim.winner := Some 1 |}).
Proof. reflexivity. Qed.

Example episode_on_default_board :
  episode 16 first_action Nim.new
  = (inr (Some 4%nat),
     {| Nim.piles := [0; 0; 0; 0]; Nim.player := 0; Nim.winner := Some 0 |}).
Proof. by vm_compute. Qed.

Section NimFacts.
Import Nim.

Lemma elem_of_add_range (i : Z) (js : list Z) (acc : gset action) (x : action) :
  x ∈ foldl (λ actions j, actions ∪ {[ (i, j) ]}) acc js
  ↔ x ∈ acc ∨ ∃ j, j ∈ js ∧ x = (i, j).
Proof.
  revert acc. induction js as [|j js IH]; intros acc; simpl.
  - split; [auto|]. intros [?|(j & Hj & _)]; [done|]. by apply elem_of_nil in Hj.
  - rewrite IH, elem_of_union, elem_of_singleton. split.
    + intros [[?| ->]|(j' & ? & ->)]; [by left| |].
      * right. exists j. split; [left|done].
      * right. exists j'. split; [by right|done].
    + intros [?|(j' & [-> | ?]%elem_of_cons & ->)]; [by left; left| |].
      * by left; right.
      * right. by exists j'.
Qed.

Lemma elem_of_add_piles (ps : list (Z * Z)) (acc : gset action) (x : action) :
  x ∈ foldl (λ actions '(i, pile),
               foldl (λ actions j, actions ∪ {[ (i, j) ]})
                     actions (range 1 (pile + 1))) acc ps
  ↔ x ∈ acc ∨ ∃ i pile j, (i, pile) ∈ ps ∧ 1 ≤ j ≤ pile ∧ x = (i, j).
Proof.
  revert acc. induction ps as [|[i pile] ps IH]; intros acc; simpl.
  - split; [auto|]. intros [?|(i & pile & j & Hin & _)]; [done|].
    by apply elem_of_nil in Hin.
  - rewrite IH, elem_of_add_range. unfold range. split.
    + intros [[?|(j & Hj%elem_of_seqZ & ->)]|(i' & pile' & j & ? & ? & ->)].
      * by left.
      * right. exists i, pile, j. split; [left|split; [lia|done]].
      * right. exists i', pile', j. split; [by right|done].
    + intros [?|(i' & pile' & j & [Heq|?]%elem_of_cons & ? & ->)].
      * by left; left.
      * injection Heq as -> ->. left; right. exists j.
        split; [apply elem_of_seqZ; lia|done].
      * right. by exists i', pile', j.
Qed.

Lemma elem_of_enumerate (l : list Z) (i pile : Z) :
  (i, pile) ∈ enumerate l ↔ 0 ≤ i ∧ l !! Z.to_nat i = Some pile.
Proof.
  unfold enumerate. rewrite elem_of_lookup_imap. split.
  - intros (n & y & [= -> ->] & Hy). split; [lia|]. by rewrite Nat2Z.id.
  - intros [Hi Hl]. exists (Z.to_nat i), pile. split; [|done].
    by rewrite Z2Nat.id.
Qed.

Lemma elem_of_available_actions (l : list Z) (i j : Z) :
  (i, j) ∈ available_actions l
  ↔ 0 ≤ i ∧ ∃ pile, l !! Z.to_nat i = Some pile ∧ 1 ≤ j ≤ pile.
Proof.
  unfold available_actions. rewrite elem_of_add_piles. split.
  - intros [H|(i' & pile & j' & [? ?]%elem_of_enumerate & ? & [= -> ->])].
    + by apply not_elem_of_empty in H.
    + split; [done|]. by exists pile.
  - intros (Hi & pile & Hl & Hj). right. exists i, pile, j.
    split; [by apply elem_of_enumerate|done].
Qed.

Lemma available_actions_empty (l : list Z) :
  available_actions l = ∅ ↔ Forall (λ pile, pile ≤ 0) l.
Proof.
  rewrite Forall_lookup. split.
  - intros Hempty n pile Hn. destruct (decide (pile ≤ 0)) as [|Hpos]; [done|].
    assert ((Z.of_nat n, 1) ∈ available_actions l) as Hin.
    { apply elem_of_available_actions. split; [lia|]. exists pile.
      rewrite Nat2Z.id. split; [done|lia]. }
    rewrite Hempty in Hin. by apply not_elem_of_empty in Hin.
  - intros Hall. apply set_eq. intros [i j].
    rewrite elem_of_available_actions. split.
    + intros (_ & pile & Hl & Hj). specialize (Hall _ _ Hl). simpl in Hall. lia.
    + intros H. by apply not_elem_of_empty in H.
Qed.

(** Subscripts that passed the range check read and write in place. *)
Lemma getitem_lookup (l : list Z) (i v : Z) :
  0 ≤ i → l !! Z.to_nat i = Some v → getitem l i = inr v.
Proof.
  intros Hi Hl. unfold getitem. apply lookup_lt_Some in Hl as Hlt.
  destruct (Z.ltb_spec i 0); [lia|].
  destruct (Z.leb_spec 0 i); [|lia].
  destruct (Z.ltb_spec i (Z.of_nat (length l))); [|lia].
  simpl. by rewrite Hl.
Qed.

Lemma setitem_insert (l : list Z) (i v : Z) :
  0 ≤ i → setitem l i v = <[Z.to_nat i := v]> l.
Proof. intros Hi. unfold setitem. by destruct (Z.ltb_spec i 0); [lia|]. Qed.

Lemma move_won (g : t) (a : action) :
  winner g ≠ None → move a g = (inl (Exception "Game already won"), g).
Proof.
  intros Hw. destruct a as [pile count]. unfold move, bind, get, raise.
  by rewrite bool_decide_eq_true_2.
Qed.

Lemma move_invalid_pile (g : t) (pile count : Z) :
  winner g = None →
  pile < 0 ∨ Z.of_nat (length (piles g)) ≤ pile →
  move (pile, count) g = (inl (Exception "Invalid pile"), g).
Proof.
  intros Hw Hp. unfold move, bind, get, raise.
  rewrite bool_decide_eq_false_2 by (by intros []).
  destruct (Z.ltb_spec pile 0); [done|]. simpl.
  destruct (Z.geb_spec pile (Z.of_nat (length (piles g)))); [done|lia].
Qed.

Lemma move_invalid_count (g : t) (pile count n : Z) :
  winner g = None →
  0 ≤ pile → piles g !! Z.to_nat pile = Some n →
  count < 1 ∨ n < count →
  move (pile, count) g = (inl (Exception "Invalid number of objects"), g).
Proof.
  intros Hw Hp Hn Hc. unfold move, bind, get, raise, lift.
  apply lookup_lt_Some in Hn as Hlt.
  rewrite bool_decide_eq_false_2 by (by intros []).
  destruct (Z.ltb_spec pile 0); [lia|]. simpl.
  destruct (Z.geb_spec pile (Z.of_nat (length (piles g)))); [lia|].
  rewrite (getitem_lookup _ _ n) by done.
  destruct (Z.ltb_spec count 1); [done|]. simpl.
  destruct (Z.gtb_spec count n); [done|lia].
Qed.

Lemma move_ok (g : t) (pile count n : Z) :
  winner g = None →
  0 ≤ pile → piles g !! Z.to_nat pile = Some n →
  1 ≤ count ≤ n →
  move (pile, count) g = (inr (), moved g pile n count).
Proof.
  intros Hw Hp Hn Hc. unfold move, bind, get, raise, lift.
  apply lookup_lt_Some in Hn as Hlt.
  rewrite bool_decide_eq_false_2 by (by intros []).
  destruct (Z.ltb_spec pile 0); [lia|]. simpl.
  destruct (Z.geb_spec pile (Z.of_nat (length (piles g)))); [lia|].
  rewrite (getitem_lookup _ _ n) by done.
  destruct (Z.ltb_spec count 1); [lia|]. simpl.
  destruct (Z.gtb_spec count n); [lia|].
  rewrite setitem_insert by done.
  unfold moved, set_piles, switch_player, set_winner, bind, get, put, ret.
  simpl. rewrite Hw. by destruct (all_zero _).
Qed.

(** Every call of [move] falls in one of the four cases above. *)
Lemma move_cases (g : t) (pile count : Z) :
  (winner g ≠ None)
  ∨ (winner g = None ∧ (pile < 0 ∨ Z.of_nat (length (piles g)) ≤ pile))
  ∨ (∃ n, winner g = None ∧ 0 ≤ pile ∧ piles g !! Z.to_nat pile = Some n
          ∧ (count < 1 ∨ n < count))
  ∨ (∃ n, winner g = None ∧ 0 ≤ pile ∧ piles g !! Z.to_nat pile = Some n
          ∧ 1 ≤ count ≤ n).
Proof.
  destruct (decide (winner g = None)) as [Hw|]; [|by left].
  right.
  destruct (decide (0 ≤ pile < Z.of_nat (length (piles g)))) as [Hp|];
    [|left; split; [done|lia]].
  right.
  destruct (lookup_lt_is_Some_2 (piles g) (Z.to_nat pile)) as [n Hn]; [lia|].
  destruct (decide (1 ≤ count ≤ n));
    [right|left]; exists n; repeat split; try done; lia.
Qed.

Lemma move_inv (g g' : t) (pile count : Z) :
  move (pile, count) g = (inr (), g') →
  ∃ n, winner g = None ∧ 0 ≤ pile ∧ piles g !! Z.to_nat pile = Some n
       ∧ 1 ≤ count ≤ n ∧ g' = moved g pile n count.
Proof.
  intros Hm.
  destruct (move_cases g pile count)
    as [Hw|[[Hw Hp]|[(n & Hw & Hp & Hn & Hc)|(n & Hw & Hp & Hn & Hc)]]].
  - by rewrite move_won in Hm.
  - by rewrite move_invalid_pile in Hm.
  - by rewrite (move_invalid_count _ _ _ n) in Hm.
  - rewrite (move_ok _ _ _ n) in Hm by done. exists n.
    by injection Hm as <-.
Qed.

Lemma move_error (g g' : t) (a : action) (e : exn) :
  move a g = (inl e, g') → g' = g ∧ (InvalidState e ∨ InvalidAction e).
Proof.
  destruct a as [pile count]. intros Hm.
  destruct (move_cases g pile count)
    as [Hw|[[Hw Hp]|[(n & Hw & Hp & Hn & Hc)|(n & Hw & Hp & Hn & Hc)]]].
  - rewrite move_won in Hm by done. injection Hm as <- <-.
    split; [done|by left].
  - rewrite move_invalid_pile in Hm by done. injection Hm as <- <-.
    split; [done|by right; left].
  - rewrite (move_invalid_count _ _ _ n) in Hm by done. injection Hm as <- <-.
    split; [done|by right; right].
  - by rewrite (move_ok _ _ _ n) in Hm.
Qed.

End NimFacts.

Section RunMoves.
Import Nim.

Lemma run_moves_cons (a : action) (acts : list action) (g g' : t) :
  run_moves (a :: acts) g = (inr (), g') →
  ∃ g1, move a g = (inr (), g1) ∧ run_moves acts g1 = (inr (), g').
Proof.
  unfold run_moves. simpl. unfold bind at 1.
  destruct (move a g) as [[e|[]] g1]; [done|]. intros Hrest. by exists g1.
Qed.

(** A game that refuses every move stays where it is. *)
Lemma run_moves_stuck (g : t) :
  (∀ a, ∃ e, move a g = (inl e, g)) →
  ∀ acts g', run_moves acts g = (inr (), g') → g' = g.
Proof.
  intros Hstuck [|a acts] g' Hrun.
  - by injection Hrun as <-.
  - apply run_moves_cons in Hrun as (g1 & Hm & _).
    destruct (Hstuck a) as [e He]. by rewrite He in Hm.
Qed.

(** What the start has and moves preserve holds after any sequence. *)
Lemma run_moves_preserves (P : t → Prop) :
  (∀ g a g', P g → move a g = (inr (), g') → P g') →
  ∀ acts g g', P g → run_moves acts g = (inr (), g') → P g'.
Proof.
  intros Hstep. induction acts as [|a acts IH]; intros g g' HP Hrun.
  - by injection Hrun as <-.
  - apply run_moves_cons in Hrun as (g1 & Hm & Hrun). eauto.
Qed.

Lemma all_zero_Forall (l : list Z) :
  all_zero l = true ↔ Forall (λ pile, pile = 0) l.
Proof.
  unfold all_zero. rewrite forallb_forall, Forall_forall.
  split; intros Hall x Hx.
  - apply Z.eqb_eq, Hall. by apply list_elem_of_In.
  - apply Z.eqb_eq, Hall. by apply list_elem_of_In.
Qed.

Lemma total_insert (l : list Z) (k : nat) (n v : Z) :
  l !! k = Some n → total (<[k := v]> l) = total l - n + v.
Proof.
  revert k. induction l as [|x l IH]; intros [|k] Hk; simplify_eq/=.
  - lia.
  - rewrite (IH k) by done. lia.
Qed.

Lemma total_nonneg (l : list Z) :
  Forall (λ pile, 0 ≤ pile) l → 0 ≤ total l.
Proof. induction 1; simpl; lia. Qed.

Lemma total_zero (l : list Z) :
  Forall (λ pile, 0 ≤ pile) l → (total l = 0 ↔ Forall (λ pile, pile = 0) l).
Proof.
  induction 1 as [|x l Hx Hl IH]; simpl.
  - split; [constructor|done].
  - pose proof (total_nonneg l Hl). rewrite Forall_cons, <- IH. lia.
Qed.

Lemma moved_nonneg (g : t) (pile n count : Z) :
  Forall (λ pile, 0 ≤ pile) (piles g) → count ≤ n →
  Forall (λ pile, 0 ≤ pile) (piles (moved g pile n count)).
Proof. intros Hall Hc. simpl. apply Forall_insert; [done|lia]. Qed.

Lemma move_total (g g' : t) (a : action) :
  move a g = (inr (), g') →
  1 ≤ a.2 ∧ total (piles g') = total (piles g) - a.2
  ∧ (Forall (λ pile, 0 ≤ pile) (piles g) → Forall (λ pile, 0 ≤ pile) (piles g')).
Proof.
  destruct a as [pile count]. intros (n & Hw & Hp & Hn & Hc & ->)%move_inv.
  split; [simpl; lia|]. split.
  - simpl. rewrite (total_insert _ _ n) by done. lia.
  - intros Hall. apply moved_nonneg; [done|lia].
Qed.

Lemma run_moves_total (acts : list action) (g g' : t) :
  Forall (λ pile, 0 ≤ pile) (piles g) →
  run_moves acts g = (inr (), g') →
  Forall (λ pile, 0 ≤ pile) (piles g')
  ∧ Z.of_nat (length acts) ≤ total (piles g) - total (piles g').
Proof.
  revert g. induction acts as [|a acts IH]; intros g Hall Hrun.
  - injection Hrun as <-. split; [done|simpl; lia].
  - apply run_moves_cons in Hrun as (g1 & Hm & Hrun).
    apply move_total in Hm as (Hc & Ht & Hnn).
    destruct (IH g1 (Hnn Hall) Hrun) as [Hall' Hlen].
    split; [done|]. rewrite length_cons. lia.
Qed.

Lemma episode_reaches_winner (policy : list Z → action) :
  legal_policy policy →
  ∀ fuel g,
    winner g = None →
    Forall (λ pile, 0 ≤ pile) (piles g) →
    0 < total (piles g) ≤ Z.of_nat fuel →
    ∃ n g', episode fuel policy g = (inr (Some n), g')
            ∧ Z.of_nat n ≤ total (piles g)
            ∧ winner g' ≠ None ∧ all_zero (piles g') = true.
Proof.
  intros Hlegal. induction fuel as [|fuel IH]; intros g Hw Hall Ht; [lia|].
  assert (available_actions (piles g) ≠ ∅) as Hne.
  { intros Hempty%available_actions_empty.
    assert (Forall (λ pile, pile = 0) (piles g)) as Hz.
    { apply Forall_lookup. intros i x Hx.
      pose proof (proj1 (Forall_lookup _ _) Hall i x Hx).
      pose proof (proj1 (Forall_lookup _ _) Hempty i x Hx). simpl in *. lia. }
    apply total_zero in Hz; [lia|done]. }
  specialize (Hlegal _ Hne). destruct (policy (piles g)) as [pile count] eqn:Hpol.
  apply elem_of_available_actions in Hlegal as (Hp & n & Hn & Hc).
  simpl. unfold bind at 1, get at 1. rewrite Hpol.
  unfold bind at 1. rewrite (move_ok _ _ _ n) by done.
  unfold bind at 1, get at 1.
  pose proof (moved_nonneg g pile n count Hall (proj2 Hc)) as Hall1.
  assert (total (piles (moved g pile n count)) = total (piles g) - count) as Ht1.
  { simpl. rewrite (total_insert _ _ n) by done. lia. }
  destruct (all_zero (piles (moved g pile n count))) eqn:Hz.
  - rewrite bool_decide_eq_true_2 by (simpl in *; by rewrite Hz).
    exists 1%nat, (moved g pile n count). unfold ret.
    repeat split; [lia|simpl in *; by rewrite Hz|done].
  - rewrite bool_decide_eq_false_2 by (simpl in *; rewrite Hz; by intros []).
    destruct (IH (moved g pile n count)) as (k & g' & Hep & Hk & Hw' & Hz').
    + simpl in *. by rewrite Hz.
    + done.
    + split; [|lia]. pose proof (total_nonneg _ Hall1) as Hge.
      destruct (decide (total (piles (moved g pile n count)) = 0)) as [H0|]; [|lia].
      apply total_zero in H0; [|done]. apply all_zero_Forall in H0. congruence.
    + exists (S k), g'. unfold bind. rewrite Hep. unfold ret. simpl.
      repeat split; [lia|done|done].
Qed.

End RunMoves.

(** * The game engine: the claims *)

(** C4. For every pile configuration (a sequence of non-negative
    integers), [available_actions] is exactly the set of the pairs
    [(i, j)] with [piles[i] > 0] and [1 ≤ j ≤ piles[i]], and it is
    empty if and only if every pile is 0. *)
Theorem available_actions_exact (piles : list Z) :
  Forall (λ pile, 0 ≤ pile) piles →
  (∀ i j, (i, j) ∈ Nim.available_actions piles
          ↔ 0 ≤ i ∧ ∃ pile, piles !! Z.to_nat i = Some pile
                            ∧ 0 < pile ∧ 1 ≤ j ≤ pile)
  ∧ (Nim.available_actions piles = ∅ ↔ Forall (λ pile, pile = 0) piles).
Proof.
  intros Hnn. split.
  - intros i j. rewrite elem_of_available_actions.
    split; intros (Hi & pile & Hl & H); (split; [done|]); exists pile;
      repeat split; try done; lia.
  - rewrite available_actions_empty, !Forall_lookup.
    split; intros Hall i x Hx.
    + pose proof (Hall i x Hx).
      pose proof (proj1 (Forall_lookup _ _) Hnn i x Hx). simpl in *. lia.
    + rewrite (Hall i x Hx). lia.
Qed.

Lemma available_actions_exact_witness :
  (∀ i j, (i, j) ∈ Nim.available_actions [0; 2; 1]
          ↔ 0 ≤ i ∧ ∃ pile, [0; 2; 1] !! Z.to_nat i = Some pile
                            ∧ 0 < pile ∧ 1 ≤ j ≤ pile)
  ∧ (Nim.available_actions [0; 2; 1] = ∅
     ↔ Forall (λ pile, pile = 0) [0; 2; 1]).
Proof.
  apply (available_actions_exact [0; 2; 1]).
  repeat constructor; lia.
Defined.

(** C2, as the code has it.  For every game without a winner and every
    legal action [(pile, count)], [move] takes exactly [count] objects
    from [piles[pile]], leaves every other pile as it was, hands the turn
    to the other player and, exactly when all piles are then zero, sets
    the winner to the player whose turn it now is: the opponent of the
    player who emptied the piles.  From piles [0,0,0,1] with player 0 to
    move, [(3, 1)] gives piles [0,0,0,0], player 1, winner 1. *)
Theorem move_effect (g : Nim.t) (pile count n : Z) :
  Nim.winner g = None →
  0 ≤ pile → Nim.piles g !! Z.to_nat pile = Some n →
  1 ≤ count ≤ n →
  (∃ g', Nim.move (pile, count) g = (inr (), g')
     ∧ length (Nim.piles g') = length (Nim.piles g)
     ∧ Nim.piles g' !! Z.to_nat pile = Some (n - count)
     ∧ (∀ k, k ≠ Z.to_nat pile → Nim.piles g' !! k = Nim.piles g !! k)
     ∧ Nim.player g' = Nim.other_player (Nim.player g)
     ∧ (Nim.player g = 0 ∨ Nim.player g = 1 →
        Nim.player g' ≠ Nim.player g
        ∧ (Nim.player g' = 0 ∨ Nim.player g' = 1))
     ∧ Nim.winner g' = (if Nim.all_zero (Nim.piles g')
                        then Some (Nim.player g') else None))
  ∧ Nim.move (3, 1) (Nim.init [0; 0; 0; 1])
    = (inr (), {| Nim.piles := [0; 0; 0; 0];
                  Nim.player := 1;
                  Nim.winner := Some 1 |}).
Proof.
  intros Hw Hp Hn Hc. split; [|reflexivity].
  exists (moved g pile n count). split; [by apply move_ok|].
  apply lookup_lt_Some in Hn as Hlt. simpl.
  split; [apply length_insert|].
  split; [by apply list_lookup_insert_eq|].
  split; [intros k Hk; by apply list_lookup_insert_ne|].
  split; [done|]. split; [|done].
  unfold Nim.other_player. intros [-> | ->]; simpl; lia.
Qed.

Lemma move_effect_witness :
  (∃ g', Nim.move (1, 2) (Nim.init [1; 3; 5; 7]) = (inr (), g')
     ∧ length (Nim.piles g') = length (Nim.piles (Nim.init [1; 3; 5; 7]))
     ∧ Nim.piles g' !! Z.to_nat 1 = Some (3 - 2)
     ∧ (∀ k, k ≠ Z.to_nat 1 →
             Nim.piles g' !! k = Nim.piles (Nim.init [1; 3; 5; 7]) !! k)
     ∧ Nim.player g' = Nim.other_player (Nim.player (Nim.init [1; 3; 5; 7]))
     ∧ (Nim.player (Nim.init [1; 3; 5; 7]) = 0
        ∨ Nim.player (Nim.init [1; 3; 5; 7]) = 1 →
        Nim.player g' ≠ Nim.player (Nim.init [1; 3; 5; 7])
        ∧ (Nim.player g' = 0 ∨ Nim.player g' = 1))
     ∧ Nim.winner g' = (if Nim.all_zero (Nim.piles g')
                        then Some (Nim.player g') else None))
  ∧ Nim.move (3, 1) (Nim.init [0; 0; 0; 1])
    = (inr (), {| Nim.piles := [0; 0; 0; 0];
                  Nim.player := 1;
                  Nim.winner := Some 1 |}).
Proof.
  apply (move_effect (Nim.init [1; 3; 5; 7]) 1 2 3);
    [reflexivity | lia | reflexivity | lia].
Defined.

(** C2, as the claim words it, fails: the winner is not the mover who
    emptied the piles.  Player 0 takes the last object and player 1 is
    recorded as the winner. *)
Lemma move_winner_is_not_mover :
  ∃ g', Nim.move (3, 1) (Nim.init [0; 0; 0; 1]) = (inr (), g')
        ∧ Nim.all_zero (Nim.piles g') = true
        ∧ Nim.player (Nim.init [0; 0; 0; 1]) = 0
        ∧ Nim.winner g' = Some 1
        ∧ Nim.winner g' ≠ Some (Nim.player (Nim.init [0; 0; 0; 1])).
Proof.
  eexists. split; [reflexivity|]. simpl. repeat split; done.
Qed.

(** C5. [move] on a game whose winner is already set fails with an
    InvalidState error; on a game without a winner, a pile index out of
    range or a count outside [1, piles[pile]] fails with an InvalidAction
    error; and whenever [move] fails, piles, player and winner are
    exactly as they were. *)
Theorem move_rejected (g : Nim.t) (pile count : Z) :
  (Nim.winner g ≠ None →
   ∃ e, Nim.move (pile, count) g = (inl e, g) ∧ InvalidState e)
  ∧ (Nim.winner g = None →
     (pile < 0 ∨ Z.of_nat (length (Nim.piles g)) ≤ pile
      ∨ ∃ n, Nim.piles g !! Z.to_nat pile = Some n ∧ (count < 1 ∨ n < count)) →
     ∃ e, Nim.move (pile, count) g = (inl e, g) ∧ InvalidAction e)
  ∧ (∀ e g', Nim.move (pile, count) g = (inl e, g') → g' = g).
Proof.
  split; [|split].
  - intros Hw. eexists. split; [by apply move_won|done].
  - intros Hw Hbad.
    destruct (decide (pile < 0 ∨ Z.of_nat (length (Nim.piles g)) ≤ pile))
      as [Hp|Hp].
    + eexists. split; [by apply move_invalid_pile|by left].
    + destruct Hbad as [?|[?|(n & Hn & Hc)]]; [lia|lia|].
      eexists. split; [apply (move_invalid_count _ _ _ n); [done|lia|done|done]|].
      by right.
  - intros e g' Hm. by apply move_error in Hm as [-> _].
Qed.

Lemma move_rejected_witness :
  let won := {| Nim.piles := [0; 0]; Nim.player := 1; Nim.winner := Some 1 |} in
  (∃ e, Nim.move (0, 1) won = (inl e, won) ∧ InvalidState e)
  ∧ (∃ e, Nim.move (1, 4) (Nim.init [1; 3]) = (inl e, Nim.init [1; 3])
          ∧ InvalidAction e)
  ∧ (∃ e, Nim.move (2, 1) (Nim.init [1; 3]) = (inl e, Nim.init [1; 3])
          ∧ InvalidAction e).
Proof.
  intros won. split; [|split].
  - apply (move_rejected won 0 1). done.
  - apply (move_rejected (Nim.init [1; 3]) 1 4); [reflexivity|].
    right; right. exists 3. split; [reflexivity|lia].
  - apply (move_rejected (Nim.init [1; 3]) 2 1); [reflexivity|].
    right; left. simpl. lia.
Defined.

(** C8, as the code has it.  For every game created from a non-empty
    sequence of positive pile sizes and changed only by [move], in every
    state it reaches the winner is set if and only if all piles are
    zero, the winner (when set) is the player whose turn it is, and once
    the winner is set every further move is refused and leaves the game
    as it is. *)
Theorem winner_iff_all_zero (initial : list Z) (acts : list action) (g : Nim.t) :
  initial ≠ [] →
  Forall (λ pile, 0 < pile) initial →
  run_moves acts (Nim.init initial) = (inr (), g) →
  (Nim.winner g ≠ None ↔ Nim.all_zero (Nim.piles g) = true)
  ∧ (∀ w, Nim.winner g = Some w → w = Nim.player g)
  ∧ (Nim.winner g ≠ None →
     ∀ a, ∃ e, Nim.move a g = (inl e, g) ∧ InvalidState e
               ∧ run_moves [a] g = (inl e, g)).
Proof.
  intros Hne Hpos Hrun.
  set (P := λ g : Nim.t,
         (Nim.winner g ≠ None ↔ Nim.all_zero (Nim.piles g) = true)
         ∧ (∀ w, Nim.winner g = Some w → w = Nim.player g)).
  assert (P g) as [Hiff Hw].
  { apply (run_moves_preserves P) with acts (Nim.init initial); [| |done].
    - intros g0 [pile count] g1 _ (n & Hw0 & Hp & Hn & Hc & ->)%move_inv.
      unfold P. simpl.
      destruct (Nim.all_zero _); split; try done; by intros ? [= <-].
    - unfold P. simpl. split; [|done]. split; [done|].
      intros Hz%all_zero_Forall. destruct Hpos as [|x l Hx _]; [done|].
      apply Forall_cons in Hz as [-> _]. lia. }
  split; [done|]. split; [done|].
  intros Hset a. exists (Exception "Game already won").
  pose proof (move_won g a Hset) as Hm. split; [done|]. split; [done|].
  unfold run_moves. simpl. unfold bind. by rewrite Hm.
Qed.

Lemma winner_iff_all_zero_witness :
  let g := {| Nim.piles := [0; 0]; Nim.player := 0; Nim.winner := Some 0 |} in
  (Nim.winner g ≠ None ↔ Nim.all_zero (Nim.piles g) = true)
  ∧ (∀ w, Nim.winner g = Some w → w = Nim.player g)
  ∧ (Nim.winner g ≠ None →
     ∀ a, ∃ e, Nim.move a g = (inl e, g) ∧ InvalidState e
               ∧ run_moves [a] g = (inl e, g)).
Proof.
  intros g.
  apply (winner_iff_all_zero [1; 2] [(1, 2); (0, 1)] g);
    [discriminate | repeat constructor; lia | reflexivity].
Defined.

(** C8, as the claim words it, fails on the game with no piles: it is
    created from a sequence of positive pile sizes (none at all), all
    its piles are zero, and it has no winner. *)
Lemma no_piles_no_winner :
  Forall (λ pile, 0 < pile) []
  ∧ run_moves [] (Nim.init []) = (inr (), Nim.init [])
  ∧ ¬ (Nim.winner (Nim.init []) ≠ None
       ↔ Nim.all_zero (Nim.piles (Nim.init [])) = true).
Proof.
  split; [constructor|]. split; [reflexivity|].
  simpl. intros [_ Hset]. by apply Hset.
Qed.

(** C9, as the code has it.  Every successful [move] takes [count ≥ 1]
    objects off the total, which never drops below zero; so no sequence
    of moves is longer than the initial total, and every game started
    from non-negative piles holding at least one object, played with
    legal moves, ends with a winner after at most that many moves. *)
Theorem episode_terminates (initial : list Z) (policy : list Z → action) :
  Forall (λ pile, 0 ≤ pile) initial →
  0 < total initial →
  legal_policy policy →
  (∀ acts g, run_moves acts (Nim.init initial) = (inr (), g) →
     (∀ a g', Nim.move a g = (inr (), g') →
              1 ≤ a.2 ∧ total (Nim.piles g') = total (Nim.piles g) - a.2)
     ∧ 0 ≤ total (Nim.piles g)
     ∧ Z.of_nat (length acts) ≤ total initial - total (Nim.piles g))
  ∧ (∃ n g, episode (Z.to_nat (total initial)) policy (Nim.init initial)
            = (inr (Some n), g)
            ∧ Z.of_nat n ≤ total initial
            ∧ Nim.winner g ≠ None).
Proof.
  intros Hnn Hpos Hlegal. split.
  - intros acts g Hrun.
    destruct (run_moves_total acts (Nim.init initial) g Hnn Hrun) as [Hall Hlen].
    split; [|split; [by apply total_nonneg|done]].
    intros a g' Hm. by apply move_total in Hm as (? & ? & _).
  - destruct (episode_reaches_winner policy Hlegal
                (Z.to_nat (total initial)) (Nim.init initial))
      as (n & g & Hep & Hn & Hw & _); [done|done|simpl; lia|].
    exists n, g. by repeat split.
Qed.

Lemma first_action_legal : legal_policy first_action.
Proof.
  intros l Hne. unfold first_action.
  destruct (elements (Nim.available_actions l)) as [|a rest] eqn:Hel.
  - by apply elements_empty_inv, leibniz_equiv in Hel.
  - simpl. apply elem_of_elements. rewrite Hel. left.
Qed.

Lemma episode_terminates_witness :
  (∀ acts g, run_moves acts (Nim.init [1; 2]) = (inr (), g) →
     (∀ a g', Nim.move a g = (inr (), g') →
              1 ≤ a.2 ∧ total (Nim.piles g') = total (Nim.piles g) - a.2)
     ∧ 0 ≤ total (Nim.piles g)
     ∧ Z.of_nat (length acts) ≤ total [1; 2] - total (Nim.piles g))
  ∧ (∃ n g, episode (Z.to_nat (total [1; 2])) first_action (Nim.init [1; 2])
            = (inr (Some n), g)
            ∧ Z.of_nat n ≤ total [1; 2]
            ∧ Nim.winner g ≠ None).
Proof.
  apply (episode_terminates [1; 2] first_action);
    [repeat constructor; lia | simpl; lia | apply first_action_legal].
Defined.

(** C9, as the claim words it, fails on boards without objects: the
    game with no piles and the game with one empty pile have no winner
    and refuse every move, so whatever is played from them, no state
    with a winner is ever reached. *)
Lemma no_objects_never_terminal :
  (Nim.winner (Nim.init []) = None
   ∧ (∀ a, ∃ e, Nim.move a (Nim.init []) = (inl e, Nim.init []))
   ∧ (∀ acts g, run_moves acts (Nim.init []) = (inr (), g) →
                Nim.winner g = None))
  ∧ (Nim.winner (Nim.init [0]) = None
     ∧ (∀ a, ∃ e, Nim.move a (Nim.init [0]) = (inl e, Nim.init [0]))
     ∧ (∀ acts g, run_moves acts (Nim.init [0]) = (inr (), g) →
                  Nim.winner g = None)).
Proof.
  assert (∀ a, ∃ e, Nim.move a (Nim.init []) = (inl e, Nim.init [])) as Hnil.
  { intros [pile count]. exists (Exception "Invalid pile").
    apply move_invalid_pile; [done|simpl; lia]. }
  assert (∀ a, ∃ e, Nim.move a (Nim.init [0]) = (inl e, Nim.init [0])) as Hone.
  { intros [pile count]. destruct (decide (pile = 0)) as [->|].
    - exists (Exception "Invalid number of objects").
      apply (move_invalid_count _ _ _ 0); [done|lia|done|lia].
    - exists (Exception "Invalid pile").
      apply move_invalid_pile; [done|simpl; lia]. }
  split; (split; [reflexivity|]); (split; [done|]); intros acts g Hrun.
  - by rewrite (run_moves_stuck _ Hnil acts g Hrun).
  - by rewrite (run_moves_stuck _ Hone acts g Hrun).
Qed.

(** * Properties of the learner *)

(** One entry, below zero, for the state (0, 2): the other legal action
    has no entry and decides the maximum. *)
Example best_future_reward_unseen_action :
  let ai := {| NimAI.q := {[ ([0; 2], (1, 1)) := Q2Qc (-1 # 2) ]};
               NimAI.alpha := Q2Qc (1 # 2);
               NimAI.epsilon := Q2Qc (1 # 10) |} in
  @NimAI.best_future_reward elements_order (PyList 0 [0; 2]) ai
  = (inr 0%Qc, ai)
  ∧ NimAI.get_q_value (PyTuple [0; 2]) (1, 1) ai = (inr (Q2Qc (-1 # 2)), ai)
  ∧ ∀ r, @NimAI.choose_action elements_order r (PyList 0 [0; 2]) false ai
         = (inr (Some (1, 2)), ai).
Proof.
  intros ai. split; [by vm_compute|]. split; [by vm_compute|].
  intros r. vm_compute. by destruct (randbelow r 1).
Qed.

Section AIFacts.
Context `{SetIter}.
Import NimAI.

Lemma get_q_value_eq (state : pyseq) (a : action) (ai : t) :
  get_q_value state a ai = (inr (q_value ai state a), ai).
Proof. reflexivity. Qed.

Lemma map_each_get_q_value (state : pyseq) (l : list action) (ai : t) :
  map_each (get_q_value state) l ai = (inr (q_value ai state <$> l), ai).
Proof.
  induction l as [|a l IH]; [done|].
  simpl. unfold bind at 1. rewrite get_q_value_eq.
  unfold bind at 1. by rewrite IH.
Qed.

Lemma elem_of_set_iter (X : gset action) (a : action) :
  a ∈ set_iter X ↔ a ∈ X.
Proof. by rewrite (set_iter_perm X), elem_of_elements. Qed.

Lemma set_iter_nil (X : gset action) : set_iter X = [] ↔ X = ∅.
Proof.
  split.
  - intros Hnil. apply set_eq. intros a.
    rewrite <- elem_of_set_iter, Hnil. set_solver.
  - intros ->. apply Permutation_nil_r. by rewrite set_iter_perm, elements_empty.
Qed.

Lemma foldl_max_spec (l : list Qc) (x : Qc) :
  let m := foldl (λ maxitem item,
                    if bool_decide (maxitem < item)%Qc then item else maxitem)
                 x l in
  m ∈ x :: l ∧ ∀ y, y ∈ x :: l → (y ≤ m)%Qc.
Proof.
  revert x. induction l as [|y l IH]; intros x; simpl.
  - split; [left|]. intros y ->%list_elem_of_singleton. apply Qcle_refl.
  - case_bool_decide as Hlt.
    + destruct (IH y) as [Hin Hmax]. split; [by right|].
      intros z [-> | Hz]%elem_of_cons; [|by apply Hmax].
      apply Qcle_trans with y; [by apply Qclt_le_weak|]. apply Hmax. left.
    + destruct (IH x) as [Hin Hmax]. split.
      * apply elem_of_cons in Hin as [-> | Hin]; [left|by right; right].
      * intros z [-> | [-> | Hz]%elem_of_cons]%elem_of_cons.
        -- apply Hmax. left.
        -- apply Qcle_trans with x; [by apply Qcnot_lt_le|]. apply Hmax. left.
        -- apply Hmax. by right.
Qed.

Lemma py_max_spec (l : list Qc) :
  l ≠ [] → ∃ v, py_max l = inr v ∧ v ∈ l ∧ ∀ y, y ∈ l → (y ≤ v)%Qc.
Proof.
  destruct l as [|x l]; [done|]. intros _. eexists. split; [reflexivity|].
  apply foldl_max_spec.
Qed.

Lemma choice_spec {A} (r : rand) (l : list A) :
  l ≠ [] → ∃ x, choice r l = inr x ∧ x ∈ l.
Proof.
  destruct l as [|y l]; [done|]. intros _. unfold choice.
  set (k := (randbelow r (length (y :: l)) `mod` length (y :: l))%nat).
  assert (k < length (y :: l))%nat as Hk.
  { apply Nat.mod_upper_bound. simpl. lia. }
  apply lookup_lt_is_Some_2 in Hk as [x Hx]. rewrite Hx.
  exists x. split; [done|]. by eapply list_elem_of_lookup_2.
Qed.

Lemma best_future_reward_spec (state : pyseq) (ai : t) :
  ∃ v, best_future_reward state ai = (inr v, ai)
       ∧ (Nim.available_actions (items state) = ∅ → v = 0%Qc)
       ∧ (Nim.available_actions (items state) ≠ ∅ →
          (∃ a, a ∈ Nim.available_actions (items state)
                ∧ q_value ai state a = v)
          ∧ ∀ a, a ∈ Nim.available_actions (items state) →
                 (q_value ai state a ≤ v)%Qc).
Proof.
  unfold best_future_reward. case_bool_decide as Hempty.
  - exists 0%Qc. by repeat split.
  - unfold bind. rewrite map_each_get_q_value. unfold lift.
    destruct (py_max_spec
                (q_value ai state <$> set_iter (Nim.available_actions (items state))))
      as (v & -> & Hin & Hmax).
    { intros Hnil%fmap_nil_inv. by apply set_iter_nil in Hnil. }
    exists v. split; [done|]. split; [done|]. intros _. split.
    + apply list_elem_of_fmap in Hin as (a & -> & Ha).
      exists a. split; [by apply elem_of_set_iter|done].
    + intros a Ha. apply Hmax, list_elem_of_fmap. exists a.
      split; [done|by apply elem_of_set_iter].
Qed.

Lemma greedy_loop_spec (ai : t) (state : pyseq) (l seen : list action)
    (acc : bound * list action) :
  best_so_far ai state seen acc →
  ∃ acc',
    for_each l
      (λ '(max_q, best_actions) a,
         let! q_val := get_q_value state a in
         if gt_bound q_val max_q then ret (Fin q_val, [a])
         else if eq_bound q_val max_q then ret (max_q, best_actions ++ [a])
         else ret (max_q, best_actions))
      acc ai = (inr acc', ai)
    ∧ best_so_far ai state (seen ++ l) acc'.
Proof.
  revert seen acc. induction l as [|a l IH]; intros seen acc Hinv.
  - exists acc. by rewrite app_nil_r.
  - simpl. unfold bind at 1.
    destruct acc as [max_q best_actions]. unfold bind at 1.
    rewrite get_q_value_eq. rewrite (cons_middle a seen l), app_assoc.
    destruct max_q as [|m]; simpl.
    + destruct Hinv as [-> Hbest]. simpl in Hbest. subst best_actions.
      apply IH. unfold best_so_far. simpl. split; [done|]. split.
      * intros b ->%list_elem_of_singleton. split; [left|done].
      * intros b ->%list_elem_of_singleton. apply Qcle_refl.
    + destruct Hinv as (Hne & Hbest & Hmax). simpl in *.
      case_bool_decide as Hgt; [|case_bool_decide as Heq]; simpl; apply IH;
        unfold best_so_far; simpl.
      * split; [done|]. split.
        -- intros b ->%list_elem_of_singleton.
           split; [apply elem_of_app; right; left|done].
        -- intros b [Hb| ->%list_elem_of_singleton]%elem_of_app;
             [|apply Qcle_refl].
           apply Qcle_trans with m; [by apply Hmax|by apply Qclt_le_weak].
      * split; [by intros [_ ?]%app_eq_nil|]. split.
        -- intros b [Hb| ->%list_elem_of_singleton]%elem_of_app.
           ++ destruct (Hbest b Hb). split; [apply elem_of_app; by left|done].
           ++ split; [apply elem_of_app; right; left|done].
        -- intros b [Hb| ->%list_elem_of_singleton]%elem_of_app;
             [by apply Hmax|]. rewrite Heq. apply Qcle_refl.
      * split; [done|]. split.
        -- intros b Hb. destruct (Hbest b Hb).
           split; [apply elem_of_app; by left|done].
        -- intros b [Hb| ->%list_elem_of_singleton]%elem_of_app;
             [by apply Hmax|by apply Qcnot_lt_le].
Qed.

Lemma update_eq (state : pyseq) (a : action) (new_state : pyseq)
    (reward : Qc) (ai : t) :
  ∃ future,
    best_future_reward new_state ai = (inr future, ai)
    ∧ update state a new_state reward ai
      = (inr (),
         {| q := <[(tuple state, a) :=
                    (q_value ai state a
                     + alpha ai * ((reward + future) - q_value ai state a))%Qc]>
                 (q ai);
            alpha := alpha ai;
            epsilon := epsilon ai |}).
Proof.
  destruct (best_future_reward_spec new_state ai) as (future & Hbest & _).
  exists future. split; [done|].
  unfold update, bind. by rewrite get_q_value_eq, Hbest.
Qed.

Lemma choose_action_pure (r : rand) (state : pyseq) (explore : bool) (ai : t) :
  (choose_action r state explore ai).2 = ai.
Proof.
  unfold choose_action. case_bool_decide; [done|].
  unfold bind at 1, get at 1.
  destruct (explore && bool_decide (random r < epsilon ai)%Qc).
  - unfold bind, lift. by destruct (choice r _).
  - unfold bind at 1.
    destruct (greedy_loop_spec ai state
                (set_iter (Nim.available_actions (items state))) []
                (NegInf, [])) as (acc' & -> & _); [done|].
    unfold bind, lift. by destruct (choice r _).
Qed.

Lemma run_updates_unwritten (k : list Z * action) (calls : list update_call)
    (ai : t) :
  q ai !! k = None →
  Forall (λ c, (tuple (call_state c), call_action c) ≠ k) calls →
  ∃ ai', run_updates calls ai = (inr (), ai') ∧ q ai' !! k = None.
Proof.
  revert ai. induction calls as [|c calls IH]; intros ai Hk Hall.
  - by exists ai.
  - apply Forall_cons in Hall as [Hc Hall].
    destruct (update_eq (call_state c) (call_action c) (call_new_state c)
                (call_reward c) ai) as (future & _ & Hupd).
    unfold run_updates. simpl. unfold bind at 1. rewrite Hupd.
    apply IH; [|done]. simpl. by rewrite lookup_insert_ne.
Qed.

End AIFacts.

(** * The learner: the claims *)


(** C6. For every state, [best_future_reward] never fails; it returns 0
    when the state has no legal action, and otherwise the largest of the
    values [get_q_value] gives to the legal actions of the state, every
    one of them being looked at: an action without an entry in the table
    counts for 0, so the result is then at least 0. *)
Theorem best_future_reward_max `{SetIter} (ai : NimAI.t) (state : pyseq) :
  ∃ v, NimAI.best_future_reward state ai = (inr v, ai)
       ∧ (Nim.available_actions (items state) = ∅ → v = 0%Qc)
       ∧ (Nim.available_actions (items state) ≠ ∅ →
          (∃ a, a ∈ Nim.available_actions (items state)
                ∧ NimAI.get_q_value state a ai = (inr v, ai))
          ∧ (∀ a, a ∈ Nim.available_actions (items state) →
                  ∃ w, NimAI.get_q_value state a ai = (inr w, ai)
                       ∧ (w ≤ v)%Qc)
          ∧ (∀ a, a ∈ Nim.available_actions (items state) →
                  NimAI.q ai !! (tuple state, a) = None → (0 ≤ v)%Qc)).
Proof.
  destruct (best_future_reward_spec state ai) as (v & Hv & Hzero & Hmax).
  exists v. split; [done|]. split; [done|]. intros Hne.
  destruct (Hmax Hne) as [(a & Ha & Hqa) Hle]. split; [|split].
  - exists a. split; [done|]. by rewrite get_q_value_eq, Hqa.
  - intros b Hb. exists (NimAI.q_value ai state b).
    split; [apply get_q_value_eq|by apply Hle].
  - intros b Hb Hnone. specialize (Hle b Hb).
    unfold NimAI.q_value in Hle. by rewrite Hnone in Hle.
Qed.



(** C7. On a learner whose [update] calls never wrote the pair
    (state, action), [get_q_value] returns 0 for it; and the state is
    turned into its tuple before the table is read or written, so two
    sequences with the same elements (a list and a tuple, a list and its
    copy) read and write the same entry. *)
Theorem get_q_value_unwritten_and_key `{SetIter} (alpha epsilon : Qc)
    (calls : list update_call) (state : pyseq) (a : action) :
  Forall (λ c, (tuple (call_state c), call_action c) ≠ (tuple state, a)) calls →
  (∃ ai, run_updates calls (NimAI.init alpha epsilon) = (inr (), ai)
         ∧ NimAI.get_q_value state a ai = (inr 0%Qc, ai))
  ∧ (∀ ai s1 s2 old reward future,
       items s1 = items s2 →
       NimAI.get_q_value s1 a ai = NimAI.get_q_value s2 a ai
       ∧ NimAI.update_q_value s1 a old reward future ai
         = NimAI.update_q_value s2 a old reward future ai
       ∧ ∃ ai', NimAI.update_q_value s1 a old reward future ai = (inr (), ai')
                ∧ NimAI.get_q_value s2 a ai'
                  = (inr (old + NimAI.alpha ai * ((reward + future) - old))%Qc,
                     ai')).
Proof.
  intros Hcalls. split.
  - destruct (run_updates_unwritten (tuple state, a) calls
                (NimAI.init alpha epsilon)) as (ai & Hrun & Hnone);
      [done|done|].
    exists ai. split; [done|].
    rewrite get_q_value_eq. unfold NimAI.q_value. by rewrite Hnone.
  - intros ai s1 s2 old reward future Hitems.
    unfold NimAI.get_q_value, NimAI.update_q_value, tuple. rewrite Hitems.
    split; [done|]. split; [done|]. eexists. split; [reflexivity|].
    unfold bind, get, ret. simpl. by rewrite lookup_insert_eq.
Qed.

Lemma get_q_value_unwritten_and_key_witness :
  let calls :=
    [ {| call_state := PyList 1 [0; 0; 1; 0]; call_action := (2, 1);
         call_new_state := PyList 2 [0; 0; 0; 0]; call_reward := (-1)%Qc |};
      {| call_state := PyList 3 [0; 1; 1; 0]; call_action := (1, 1);
         call_new_state := PyList 2 [0; 0; 0; 0]; call_reward := 1%Qc |} ] in
  (∃ ai, @run_updates elements_order calls
           (NimAI.init (Q2Qc (1 # 2)) (Q2Qc (1 # 10))) = (inr (), ai)
         ∧ NimAI.get_q_value (PyTuple [0; 1; 1; 0]) (2, 1) ai = (inr 0%Qc, ai))
  ∧ (∀ ai s1 s2 old reward future,
       items s1 = items s2 →
       NimAI.get_q_value s1 (2, 1) ai = NimAI.get_q_value s2 (2, 1) ai
       ∧ NimAI.update_q_value s1 (2, 1) old reward future ai
         = NimAI.update_q_value s2 (2, 1) old reward future ai
       ∧ ∃ ai', NimAI.update_q_value s1 (2, 1) old reward future ai
                = (inr (), ai')
                ∧ NimAI.get_q_value s2 (2, 1) ai'
                  = (inr (old + NimAI.alpha ai * ((reward + future) - old))%Qc,
                     ai')).
Proof.
  intros calls.
  apply (@get_q_value_unwritten_and_key elements_order
           (Q2Qc (1 # 2)) (Q2Qc (1 # 10)) calls (PyTuple [0; 1; 1; 0]) (2, 1)).
  repeat constructor; simpl; discriminate.
Defined.

(** C10. The keys of the table only grow.  [update] never fails, adds
    the one key (tuple of the old state, action) to the keys that were
    there, and leaves every other entry and the two rates as they were;
    [get_q_value], [best_future_reward] and [choose_action] leave the
    learner exactly as they found it. *)
Theorem table_grows `{SetIter} (ai : NimAI.t) (r : rand)
    (state new_state : pyseq) (a : action) (reward : Qc) (explore : bool) :
  (∃ ai', NimAI.update state a new_state reward ai = (inr (), ai')
          ∧ dom (NimAI.q ai') = dom (NimAI.q ai) ∪ {[ (tuple state, a) ]}
          ∧ dom (NimAI.q ai) ⊆ dom (NimAI.q ai')
          ∧ (∀ k, k ≠ (tuple state, a) → NimAI.q ai' !! k = NimAI.q ai !! k)
          ∧ NimAI.alpha ai' = NimAI.alpha ai
          ∧ NimAI.epsilon ai' = NimAI.epsilon ai)
  ∧ (NimAI.get_q_value state a ai).2 = ai
  ∧ (NimAI.best_future_reward state ai).2 = ai
  ∧ (NimAI.choose_action r state explore ai).2 = ai.
Proof.
  split; [|split; [|split]].
  - destruct (update_eq state a new_state reward ai) as (future & _ & Hupd).
    eexists. split; [done|]. simpl.
    rewrite dom_insert_L.
    split; [apply (comm_L (∪))|]. split; [apply union_subseteq_r|].
    split; [|done]. intros k Hk. by rewrite lookup_insert_ne.
  - done.
  - by destruct (best_future_reward_spec state ai) as (v & -> & _).
  - apply choose_action_pure.
Qed.

(** * More on the game engine *)

Section NimMore.
Import Nim.

Lemma run_moves_player (acts : list action) (g0 g : t) :
  player g0 = 0 ∨ player g0 = 1 →
  run_moves acts g0 = (inr (), g) →
  player g = (player g0 + Z.of_nat (length acts)) `mod` 2.
Proof.
  revert g0. induction acts as [|[pile count] acts IH]; intros g0 Hp Hrun.
  - injection Hrun as <-. simpl. destruct Hp as [-> | ->]; reflexivity.
  - apply run_moves_cons in Hrun as (g1 & Hm & Hrun).
    apply move_inv in Hm as (n & _ & _ & _ & _ & ->).
    assert (player (moved g0 pile n count) = 0
            ∨ player (moved g0 pile n count) = 1) as Hp1.
    { simpl. unfold other_player. destruct Hp as [-> | ->]; simpl; lia. }
    rewrite (IH _ Hp1 Hrun). simpl player. unfold other_player.
    rewrite length_cons, Nat2Z.inj_succ.
    destruct Hp as [-> | ->]; simpl.
    + f_equal. lia.
    + replace (Z.succ (Z.of_nat (length acts)))
        with (Z.of_nat (length acts) + 1) by lia.
      replace (1 + (Z.of_nat (length acts) + 1))
        with (0 + Z.of_nat (length acts) + 1 * 2) by lia.
      symmetry. apply Z_mod_plus_full.
Qed.

Lemma run_moves_winner_is_player (acts : list action) (g0 g : t) :
  winner g0 = None →
  run_moves acts g0 = (inr (), g) →
  ∀ w, winner g = Some w → w = player g ∧ acts ≠ [].
Proof.
  intros Hw0 Hrun w Hw. destruct acts as [|a acts].
  { injection Hrun as <-. congruence. }
  split; [|done]. revert w Hw.
  apply run_moves_cons in Hrun as (g1 & Hm & Hrun).
  assert (∀ w, winner g1 = Some w → w = player g1) as H1.
  { destruct a as [pile count].
    apply move_inv in Hm as (n & _ & _ & _ & _ & ->). simpl.
    destruct (all_zero _); [|done]. by intros ? [= <-]. }
  apply (run_moves_preserves (λ g, ∀ w, winner g = Some w → w = player g))
    with acts g1; [|done|done].
  intros g2 [pile count] g3 _ (n & _ & _ & _ & _ & ->)%move_inv. simpl.
  destruct (all_zero _); [|done]. by intros ? [= <-].
Qed.

Lemma elem_of_available_actions_lt (l : list Z) (i j : Z) :
  (i, j) ∈ available_actions l → 0 ≤ i < Z.of_nat (length l).
Proof.
  intros (Hi & pile & Hl%lookup_lt_Some & _)%elem_of_available_actions. lia.
Qed.

Lemma add_range_list_to_set (i : Z) (js : list Z) (acc : gset action) :
  foldl (λ actions j, actions ∪ {[ (i, j) ]}) acc js
  = acc ∪ list_to_set (pair i <$> js).
Proof.
  revert acc. induction js as [|j js IH]; intros acc; simpl.
  - by rewrite (right_id_L ∅ (∪)).
  - rewrite IH. by rewrite (assoc_L (∪)).
Qed.

Lemma available_actions_snoc (l : list Z) (pile : Z) :
  available_actions (l ++ [pile])
  = available_actions l
    ∪ list_to_set (pair (Z.of_nat (length l)) <$> range 1 (pile + 1)).
Proof.
  unfold available_actions, enumerate.
  rewrite imap_app, foldl_app. simpl.
  by rewrite add_range_list_to_set, Nat.add_0_r.
Qed.

Lemma size_available_actions (l : list Z) :
  Z.of_nat (size (available_actions l)) = total (Z.max 0 <$> l).
Proof.
  induction l as [|pile l IH] using rev_ind; [done|].
  rewrite available_actions_snoc, size_union.
  - rewrite Nat2Z.inj_add, IH, fmap_app. simpl.
    assert (∀ l1 l2, total (l1 ++ l2) = total l1 + total l2) as Happ.
    { intros l1 l2. induction l1 as [|x l1 IH1]; simpl; lia. }
    rewrite Happ. simpl. f_equal.
    rewrite size_list_to_set.
    + rewrite length_fmap. unfold range. rewrite length_seqZ. lia.
    + apply NoDup_fmap_2; [by intros ?? [= ->]|apply NoDup_seqZ].
  - intros [i j] Hin%elem_of_available_actions_lt
      (? & [= -> _] & _)%elem_of_list_to_set%list_elem_of_fmap. lia.
Qed.

Lemma moved_within (g : t) (bound : list Z) (pile n count : Z) :
  Forall2 (λ x b, 0 ≤ x ≤ b) (piles g) bound →
  piles g !! Z.to_nat pile = Some n → 1 ≤ count ≤ n →
  Forall2 (λ x b, 0 ≤ x ≤ b) (piles (moved g pile n count)) bound.
Proof.
  intros Hall Hn Hc. simpl.
  apply Forall2_same_length_lookup. split.
  - rewrite length_insert. by eapply Forall2_length.
  - intros k x b Hx Hb.
    destruct (decide (k = Z.to_nat pile)) as [->|Hne].
    + rewrite list_lookup_insert_eq in Hx by (by eapply lookup_lt_Some).
      injection Hx as <-.
      pose proof (Forall2_lookup_lr _ _ _ _ _ _ Hall Hn Hb). simpl in *. lia.
    + rewrite list_lookup_insert_ne in Hx by done.
      apply (Forall2_lookup_lr _ _ _ _ _ _ Hall Hx Hb).
Qed.

End NimMore.

(** X1. Turns alternate from player 0: after [k] accepted moves on a
    new game it is the turn of player [k mod 2], and a winner, once
    there is one, is that same player, the one who did not make the
    last move; a game never has a winner before its first move. *)
Theorem turns_alternate (initial : list Z) (acts : list action) (g : Nim.t) :
  run_moves acts (Nim.init initial) = (inr (), g) →
  Nim.player g = Z.of_nat (length acts) `mod` 2
  ∧ ∀ w, Nim.winner g = Some w →
         acts ≠ [] ∧ w = Z.of_nat (length acts) `mod` 2.
Proof.
  intros Hrun.
  pose proof (run_moves_player acts (Nim.init initial) g (or_introl eq_refl) Hrun)
    as Hp. simpl in Hp.
  split; [done|]. intros w Hw.
  destruct (run_moves_winner_is_player acts (Nim.init initial) g eq_refl Hrun w Hw)
    as [-> Hne].
  by split.
Qed.

Lemma turns_alternate_witness :
  let g := {| Nim.piles := [0; 0]; Nim.player := 1; Nim.winner := Some 1 |} in
  Nim.player g = Z.of_nat (length [(0, 1); (1, 1); (1, 1)]) `mod` 2
  ∧ ∀ w, Nim.winner g = Some w →
         [(0, 1); (1, 1); (1, 1)] ≠ []
         ∧ w = Z.of_nat (length [(0, 1); (1, 1); (1, 1)]) `mod` 2.
Proof.
  intros g.
  apply (turns_alternate [1; 2] [(0, 1); (1, 1); (1, 1)] g). reflexivity.
Defined.

(** X2. On a game without a winner, [move] accepts an action exactly
    when [available_actions] lists it for the current piles. *)
Theorem move_accepts_iff_legal (g : Nim.t) (a : action) :
  Nim.winner g = None →
  (∃ g', Nim.move a g = (inr (), g')) ↔ a ∈ Nim.available_actions (Nim.piles g).
Proof.
  intros Hw. destruct a as [pile count]. rewrite elem_of_available_actions.
  split.
  - intros [g' (n & _ & Hp & Hn & Hc & _)%move_inv].
    split; [done|]. by exists n.
  - intros (Hp & n & Hn & Hc). eexists. by apply (move_ok _ _ _ n).
Qed.

Lemma move_accepts_iff_legal_witness :
  (∃ g', Nim.move (2, 5) Nim.new = (inr (), g'))
  ↔ (2, 5) ∈ Nim.available_actions (Nim.piles Nim.new).
Proof. apply (move_accepts_iff_legal Nim.new (2, 5)). reflexivity. Defined.

(** X3. [available_actions] has one action per object: the size of the
    set is the sum of the positive piles (a negative pile counts for
    none), so for non-negative piles it is the sum of the piles. *)
Theorem count_available_actions (piles : list Z) :
  Z.of_nat (size (Nim.available_actions piles)) = total (Z.max 0 <$> piles)
  ∧ (Forall (λ pile, 0 ≤ pile) piles →
     Z.of_nat (size (Nim.available_actions piles)) = total piles).
Proof.
  split; [apply size_available_actions|].
  intros Hnn. rewrite size_available_actions. f_equal.
  induction Hnn as [|x l Hx _ IH]; [done|].
  rewrite fmap_cons, IH. f_equal. lia.
Qed.

Lemma count_available_actions_witness :
  Z.of_nat (size (Nim.available_actions [1; 3; 5; 7])) = total [1; 3; 5; 7].
Proof.
  apply (count_available_actions [1; 3; 5; 7]). repeat constructor; lia.
Defined.

(** X4. A game started from non-negative piles keeps its number of
    piles, and every pile stays between 0 and its initial size,
    whatever sequence of moves is accepted. *)
Theorem piles_stay_within (initial : list Z) (acts : list action) (g : Nim.t) :
  Forall (λ pile, 0 ≤ pile) initial →
  run_moves acts (Nim.init initial) = (inr (), g) →
  length (Nim.piles g) = length initial
  ∧ Forall2 (λ x b, 0 ≤ x ≤ b) (Nim.piles g) initial.
Proof.
  intros Hnn Hrun.
  assert (Forall2 (λ x b, 0 ≤ x ≤ b) (Nim.piles g) initial) as Hall.
  { apply (run_moves_preserves
             (λ g, Forall2 (λ x b, 0 ≤ x ≤ b) (Nim.piles g) initial))
      with acts (Nim.init initial); [| |done].
    - intros g0 [pile count] g1 Hall (n & _ & _ & Hn & Hc & ->)%move_inv.
      by apply moved_within.
    - simpl. apply Forall2_same_length_lookup. split; [done|].
      intros k x b Hx Hb. simplify_eq.
      pose proof (proj1 (Forall_lookup _ _) Hnn k x Hx). simpl in *. lia. }
  split; [by eapply Forall2_length|done].
Qed.

Lemma piles_stay_within_witness :
  let g := {| Nim.piles := [1; 0; 5; 4]; Nim.player := 0; Nim.winner := None |} in
  length (Nim.piles g) = length [1; 3; 5; 7]
  ∧ Forall2 (λ x b, 0 ≤ x ≤ b) (Nim.piles g) [1; 3; 5; 7].
Proof.
  intros g.
  apply (piles_stay_within [1; 3; 5; 7] [(1, 3); (3, 3)] g);
    [repeat constructor; lia | reflexivity].
Defined.

(** * More on the learner *)

Section AIMore.
Context `{SetIter}.
Import NimAI.

Lemma step_up (α old target : Qc) :
  (0 ≤ α)%Qc → (α ≤ 1)%Qc → (old ≤ target)%Qc →
  (old ≤ old + α * (target - old))%Qc
  ∧ (old + α * (target - old) ≤ target)%Qc.
Proof.
  intros H0 H1 Hle.
  assert (0 ≤ target - old)%Qc as Hd by (by apply Qcle_minus_iff in Hle).
  split.
  - rewrite <- (Qcplus_0_r old) at 1. apply Qcplus_le_mono_l.
    rewrite <- (Qcmult_0_l (target - old)). by apply Qcmult_le_compat_r.
  - apply Qcle_trans with (old + 1 * (target - old))%Qc.
    + apply Qcplus_le_mono_l. by apply Qcmult_le_compat_r.
    + assert (old + 1 * (target - old) = target)%Qc as -> by ring.
      apply Qcle_refl.
Qed.

Lemma step_down (α old target : Qc) :
  (0 ≤ α)%Qc → (α ≤ 1)%Qc → (target ≤ old)%Qc →
  (target ≤ old + α * (target - old))%Qc
  ∧ (old + α * (target - old) ≤ old)%Qc.
Proof.
  intros H0 H1 Hle.
  assert (old + α * (target - old)
          = target + (1 - α) * (old - target))%Qc as -> by ring.
  apply step_up; [| |done].
  - by apply Qcle_minus_iff in H1.
  - apply Qcle_minus_iff.
    assert (1 + - (1 - α) = α)%Qc as -> by ring. done.
Qed.

Lemma step_within (α old target lo hi : Qc) :
  (0 ≤ α)%Qc → (α ≤ 1)%Qc →
  (lo ≤ old)%Qc → (old ≤ hi)%Qc → (lo ≤ target)%Qc → (target ≤ hi)%Qc →
  (lo ≤ old + α * (target - old))%Qc ∧ (old + α * (target - old) ≤ hi)%Qc.
Proof.
  intros H0 H1 Hlo Hhi Hlo' Hhi'.
  destruct (Qclt_le_dec target old) as [Hlt%Qclt_le_weak|Hle].
  - destruct (step_down α old target H0 H1 Hlt) as [Hl Hu].
    split; [by apply Qcle_trans with target|by apply Qcle_trans with old].
  - destruct (step_up α old target H0 H1 Hle) as [Hl Hu].
    split; [by apply Qcle_trans with old|by apply Qcle_trans with target].
Qed.

(** The loop of [choose_action] is the fold of [keep_best]. *)
Lemma greedy_loop_fold (ai : t) (state : pyseq) (l : list action)
    (acc : bound * list action) :
  for_each l
    (λ '(max_q, best_actions) a,
       let! q_val := get_q_value state a in
       if gt_bound q_val max_q then ret (Fin q_val, [a])
       else if eq_bound q_val max_q then ret (max_q, best_actions ++ [a])
       else ret (max_q, best_actions))
    acc ai
  = (inr (foldl (keep_best (q_value ai state)) acc l), ai).
Proof.
  revert acc. induction l as [|a l IH]; intros [max_q best]; [done|].
  simpl. unfold bind at 1, bind at 1. rewrite get_q_value_eq.
  unfold keep_best at 2. simpl.
  destruct (gt_bound _ max_q); [apply IH|].
  destruct (eq_bound _ max_q); apply IH.
Qed.

Lemma keep_best_ext (f g : action → Qc) (l : list action)
    (acc : bound * list action) :
  (∀ a, a ∈ l → f a = g a) →
  foldl (keep_best f) acc l = foldl (keep_best g) acc l.
Proof.
  revert acc. induction l as [|a l IH]; intros acc Hfg; [done|].
  simpl. unfold keep_best at 2 4. rewrite (Hfg a) by left.
  apply IH. intros b Hb. apply Hfg. by right.
Qed.

Lemma keep_best_ties (f : action → Qc) (l seen : list action)
    (acc : bound * list action) :
  ties_so_far f seen acc →
  ties_so_far f (seen ++ l) (foldl (keep_best f) acc l).
Proof.
  revert seen acc. induction l as [|a l IH]; intros seen acc Hinv.
  - by rewrite app_nil_r.
  - simpl. rewrite (cons_middle a seen l), app_assoc. apply IH.
    destruct acc as [[|m] best]; unfold ties_so_far, keep_best in *; simpl in *.
    + destruct Hinv as [-> ->]. simpl. split; [exists a; split; [left|done]|].
      split; [intros b ->%list_elem_of_singleton; apply Qcle_refl|].
      by rewrite filter_singleton_True.
    + destruct Hinv as ((a0 & Ha0 & Hm) & Hmax & ->).
      case_bool_decide as Hgt; [|case_bool_decide as Heq]; simpl.
      * split; [exists a; split; [apply elem_of_app; right; left|done]|].
        split.
        -- intros b [Hb| ->%list_elem_of_singleton]%elem_of_app;
             [|apply Qcle_refl].
           apply Qcle_trans with m; [by apply Hmax|by apply Qclt_le_weak].
        -- rewrite filter_app, filter_singleton_True by done.
           assert (filter (λ a1, f a1 = f a) seen = []) as ->; [|done].
           destruct (filter _ seen) as [|b rest] eqn:Hf; [done|].
           assert (b ∈ filter (λ a1, f a1 = f a) seen) as Hb
             by (rewrite Hf; left).
           apply list_elem_of_filter in Hb as [Hfb Hb].
           apply Hmax in Hb. rewrite Hfb in Hb.
           by apply Qcle_not_lt in Hb.
      * split; [exists a0; split; [apply elem_of_app; by left|done]|].
        split.
        -- intros b [Hb| ->%list_elem_of_singleton]%elem_of_app;
             [by apply Hmax|]. rewrite Heq. apply Qcle_refl.
        -- by rewrite filter_app, filter_singleton_True.
      * split; [exists a0; split; [apply elem_of_app; by left|done]|].
        split.
        -- intros b [Hb| ->%list_elem_of_singleton]%elem_of_app;
             [by apply Hmax|by apply Qcnot_lt_le].
        -- rewrite filter_app, filter_singleton_False by done.
           by rewrite app_nil_r.
Qed.

Lemma choice_reaches {A} (r0 : Qc) (l : list A) (x : A) :
  x ∈ l → ∃ r, random r = r0 ∧ choice r l = inr x.
Proof.
  intros (i & Hi)%list_elem_of_lookup.
  exists {| random := r0; randbelow := λ _, i |}. split; [done|].
  apply lookup_lt_Some in Hi as Hlt.
  destruct l as [|y l]; [done|]. unfold choice. simpl randbelow.
  by rewrite Nat.mod_small, Hi.
Qed.

Lemma choose_action_explore (r : rand) (state : pyseq) (ai : t) :
  Nim.available_actions (items state) ≠ ∅ →
  (random r < epsilon ai)%Qc →
  choose_action r state true ai
  = (match choice r (set_iter (Nim.available_actions (items state))) with
     | inl e => inl e
     | inr a => inr (Some a)
     end, ai).
Proof.
  intros Hne Hdraw. unfold choose_action.
  rewrite bool_decide_eq_false_2 by (by rewrite set_iter_nil).
  unfold bind at 1, get at 1. rewrite bool_decide_eq_true_2 by done.
  simpl. unfold bind, lift. by destruct (choice r _).
Qed.

Lemma choose_action_exploit (r : rand) (state : pyseq) (explore : bool) (ai : t) :
  Nim.available_actions (items state) ≠ ∅ →
  explore = false ∨ ¬ (random r < epsilon ai)%Qc →
  choose_action r state explore ai
  = (match choice r
             (foldl (keep_best (q_value ai state)) (NegInf, [])
                    (set_iter (Nim.available_actions (items state)))).2 with
     | inl e => inl e
     | inr a => inr (Some a)
     end, ai).
Proof.
  intros Hne Hgreedy. unfold choose_action.
  rewrite bool_decide_eq_false_2 by (by rewrite set_iter_nil).
  unfold bind at 1, get at 1.
  assert (explore && bool_decide (random r < epsilon ai)%Qc = false) as ->.
  { destruct Hgreedy as [-> | Hdraw]; [done|].
    rewrite bool_decide_eq_false_2 by done. apply andb_false_r. }
  unfold bind at 1. rewrite greedy_loop_fold.
  unfold bind, lift. by destruct (choice r _).
Qed.

Lemma choose_action_legal (r : rand) (state : pyseq) (explore : bool) (ai : t) :
  Nim.available_actions (items state) ≠ ∅ →
  ∃ a, choose_action r state explore ai = (inr (Some a), ai)
       ∧ a ∈ Nim.available_actions (items state).
Proof.
  intros Hne.
  destruct (decide (explore = false ∨ ¬ (random r < epsilon ai)%Qc))
    as [Hgreedy|Hexplore].
  - rewrite choose_action_exploit by done.
    pose proof (keep_best_ties (q_value ai state)
                  (set_iter (Nim.available_actions (items state))) []
                  (NegInf, []) (conj eq_refl eq_refl)) as Hties.
    simpl in Hties. unfold ties_so_far in Hties.
    destruct (foldl _ _ _) as [[|m] best]; simpl in *.
    { destruct Hties as [Hnil _]. by apply set_iter_nil in Hnil. }
    destruct Hties as ((a0 & Ha0 & Hm) & _ & ->).
    destruct (choice_spec r (filter (λ a, q_value ai state a = m)
                (set_iter (Nim.available_actions (items state)))))
      as (a & -> & [_ Ha]%list_elem_of_filter).
    { intros Hnil.
      assert (a0 ∈ filter (λ a, q_value ai state a = m)
                     (set_iter (Nim.available_actions (items state)))) as Hin
        by (by apply list_elem_of_filter).
      rewrite Hnil in Hin. by apply elem_of_nil in Hin. }
    exists a. split; [done|]. by apply elem_of_set_iter.
  - assert (explore = true ∧ (random r < epsilon ai)%Qc) as [-> Hdraw].
    { destruct explore; [|by destruct Hexplore; left].
      split; [done|]. destruct (decide (random r < epsilon ai)%Qc); [done|].
      destruct Hexplore. by right. }
    rewrite choose_action_explore by done.
    destruct (choice_spec r (set_iter (Nim.available_actions (items state))))
      as (a & -> & Ha); [by rewrite set_iter_nil|].
    exists a. split; [done|]. by apply elem_of_set_iter.
Qed.

Lemma readers_agree (ai ai' : t) (state : pyseq) :
  epsilon ai = epsilon ai' →
  (∀ a, a ∈ Nim.available_actions (items state) →
        q_value ai state a = q_value ai' state a) →
  (best_future_reward state ai).1 = (best_future_reward state ai').1
  ∧ ∀ r explore,
      (choose_action r state explore ai).1 = (choose_action r state explore ai').1.
Proof.
  intros Heps Hagree. split.
  - unfold best_future_reward. case_bool_decide; [done|].
    unfold bind. rewrite !map_each_get_q_value. unfold lift. simpl.
    f_equal. apply list_fmap_ext. intros i a Ha.
    apply Hagree, elem_of_set_iter. by eapply list_elem_of_lookup_2.
  - intros r explore.
    destruct (decide (Nim.available_actions (items state) = ∅)) as [Hempty|Hne].
    { unfold choose_action.
      by rewrite !bool_decide_eq_true_2 by (by apply set_iter_nil). }
    destruct (decide (explore = false ∨ ¬ (random r < epsilon ai)%Qc))
      as [Hgreedy|Hexplore].
    + rewrite (choose_action_exploit r state explore ai) by done.
      rewrite (choose_action_exploit r state explore ai')
        by (try rewrite <- Heps; done).
      rewrite (keep_best_ext (q_value ai state) (q_value ai' state)); [done|].
      intros a Ha. by apply Hagree, elem_of_set_iter.
    + assert (explore = true ∧ (random r < epsilon ai)%Qc) as [-> Hdraw].
      { destruct explore; [|by destruct Hexplore; left].
        split; [done|]. destruct (decide (random r < epsilon ai)%Qc); [done|].
        destruct Hexplore. by right. }
      rewrite (choose_action_explore r state ai) by done.
      by rewrite (choose_action_explore r state ai')
        by (try rewrite <- Heps; done).
Qed.

End AIMore.



(** X6. [best_future_reward] and [choose_action] look at the entries of
    the legal actions of the state they are given and at nothing else
    in the table: two learners with the same exploration rate whose
    tables agree on those entries give the same answers. *)
Theorem readers_use_legal_entries_only `{SetIter} (ai ai' : NimAI.t)
    (state : pyseq) (r : rand) (explore : bool) :
  NimAI.epsilon ai = NimAI.epsilon ai' →
  (∀ a, a ∈ Nim.available_actions (items state) →
        (NimAI.get_q_value state a ai).1 = (NimAI.get_q_value state a ai').1) →
  (NimAI.best_future_reward state ai).1 = (NimAI.best_future_reward state ai').1
  ∧ (NimAI.choose_action r state explore ai).1
    = (NimAI.choose_action r state explore ai').1.
Proof.
  intros Heps Hagree.
  destruct (readers_agree ai ai' state Heps) as [Hbest Hchoose].
  - intros a Ha. specialize (Hagree a Ha).
    rewrite !get_q_value_eq in Hagree. simpl in Hagree. congruence.
  - split; [done|apply Hchoose].
Qed.

Lemma readers_use_legal_entries_only_witness :
  let ai := NimAI.new in
  let ai' := {| NimAI.q := {[ ([0; 2], (0, 1)) := 1%Qc ]};
                NimAI.alpha := 1%Qc;
                NimAI.epsilon := Q2Qc (1 # 10) |} in
  let r := {| random := 0%Qc; randbelow := λ _, 0%nat |} in
  (@NimAI.best_future_reward elements_order (PyTuple [0; 2]) ai).1
  = (@NimAI.best_future_reward elements_order (PyTuple [0; 2]) ai').1
  ∧ (@NimAI.choose_action elements_order r (PyTuple [0; 2]) true ai).1
    = (@NimAI.choose_action elements_order r (PyTuple [0; 2]) true ai').1.
Proof.
  intros ai ai' r.
  apply (@readers_use_legal_entries_only elements_order ai ai'
           (PyTuple [0; 2]) r true); [reflexivity|].
  intros [i j] (Hi & pile & Hl & Hj)%elem_of_available_actions.
  rewrite !get_q_value_eq. unfold NimAI.q_value. simpl.
  rewrite lookup_empty, lookup_singleton_ne; [done|].
  intros [= <- <-]. simpl in Hl. injection Hl as <-. lia.
Defined.

(** X7. An [update] for (state, action) changes what
    [best_future_reward] and [choose_action] answer only for that state,
    and only if the action is legal there: for a state with another
    tuple, or one where the action is not legal, both answer as
    before. *)
Theorem update_leaves_other_states `{SetIter} (ai ai' : NimAI.t)
    (old_state : pyseq) (a : action) (new_state : pyseq) (reward : Qc)
    (state : pyseq) (r : rand) (explore : bool) :
  NimAI.update old_state a new_state reward ai = (inr (), ai') →
  tuple state ≠ tuple old_state ∨ a ∉ Nim.available_actions (items state) →
  (NimAI.best_future_reward state ai').1 = (NimAI.best_future_reward state ai).1
  ∧ (NimAI.choose_action r state explore ai').1
    = (NimAI.choose_action r state explore ai).1.
Proof.
  intros Hupd Hother.
  destruct (update_eq old_state a new_state reward ai) as (future & _ & Heq).
  rewrite Heq in Hupd. injection Hupd as <-.
  match goal with |- context [NimAI.best_future_reward state ?x] =>
    destruct (readers_agree x ai state) as [Hbest Hchoose] end.
  - done.
  - intros b Hb. unfold NimAI.q_value. simpl.
    rewrite lookup_insert_ne; [done|].
    intros [= Hs ->]. destruct Hother as [Hne|Hill]; [by rewrite Hs in Hne|done].
  - split; [done|apply Hchoose].
Qed.

Lemma update_leaves_other_states_witness :
  let ai := NimAI.new in
  let ai' := {| NimAI.q := {[ ([0; 0; 1; 0], (2, 1)) := Q2Qc (-1 # 2) ]};
                NimAI.alpha := Q2Qc (1 # 2);
                NimAI.epsilon := Q2Qc (1 # 10) |} in
  let r := {| random := 0%Qc; randbelow := λ _, 0%nat |} in
  (@NimAI.best_future_reward elements_order (PyTuple [0; 1; 1; 0]) ai').1
  = (@NimAI.best_future_reward elements_order (PyTuple [0; 1; 1; 0]) ai).1
  ∧ (@NimAI.choose_action elements_order r (PyTuple [0; 1; 1; 0]) true ai').1
    = (@NimAI.choose_action elements_order r (PyTuple [0; 1; 1; 0]) true ai).1.
Proof.
  intros ai ai' r.
  apply (@update_leaves_other_states elements_order ai ai'
           (PyList 0 [0; 0; 1; 0]) (2, 1) (PyList 1 [0; 0; 0; 0]) (-1)%Qc
           (PyTuple [0; 1; 1; 0]) r true).
  - unfold ai'. rewrite <- insert_empty.
    destruct (update_eq (H:=elements_order) (PyList 0 [0; 0; 1; 0]) (2, 1)
                (PyList 1 [0; 0; 0; 0]) (-1)%Qc ai) as (future & Hbest & ->).
    destruct (best_future_reward_spec (H:=elements_order)
                (PyList 1 [0; 0; 0; 0]) ai) as (v & Hv & Hzero & _).
    rewrite Hv in Hbest. injection Hbest as <-. rewrite Hzero by reflexivity.
    do 2 f_equal; try (f_equal; apply Qc_is_canon; reflexivity).
  - left. by vm_compute.
Defined.

(** X8. In greedy mode [choose_action] hands to [random.choice] the
    list of all legal actions whose value is the maximum, the one
    [best_future_reward] returns, in the order the set is iterated: no
    tied action is left out, so each of them is returned for some
    draw of [random.choice]. *)
Theorem greedy_choice_over_all_ties `{SetIter} (ai : NimAI.t) (r : rand)
    (state : pyseq) (explore : bool) :
  Nim.available_actions (items state) ≠ ∅ →
  explore = false ∨ ¬ (random r < NimAI.epsilon ai)%Qc →
  ∃ m, NimAI.best_future_reward state ai = (inr m, ai)
       ∧ NimAI.choose_action r state explore ai
         = (match choice r (filter (λ a, NimAI.q_value ai state a = m)
                              (set_iter (Nim.available_actions (items state))))
            with
            | inl e => inl e
            | inr a => inr (Some a)
            end, ai)
       ∧ ∀ b, b ∈ Nim.available_actions (items state) →
              NimAI.get_q_value state b ai = (inr m, ai) →
              ∃ r', random r' = random r
                    ∧ NimAI.choose_action r' state explore ai
                      = (inr (Some b), ai).
Proof.
  intros Hne Hgreedy.
  pose proof (keep_best_ties (NimAI.q_value ai state)
                (set_iter (Nim.available_actions (items state))) []
                (NegInf, []) (conj eq_refl eq_refl)) as Hties.
  simpl in Hties. unfold ties_so_far in Hties.
  destruct (foldl _ _ _) as [[|m] best] eqn:Hfold; simpl in Hties.
  { destruct Hties as [Hnil _]. by apply set_iter_nil in Hnil. }
  destruct Hties as ((a0 & Ha0 & Hm) & Hmax & ->).
  destruct (best_future_reward_spec state ai) as (v & Hv & _ & Hbfr).
  destruct (Hbfr Hne) as [(a1 & Ha1 & Hv1) Hle].
  assert (v = m) as ->.
  { apply Qcle_antisym.
    - rewrite <- Hv1. by apply Hmax, elem_of_set_iter.
    - rewrite <- Hm. by apply Hle, elem_of_set_iter. }
  exists m. split; [done|]. split.
  { rewrite choose_action_exploit by done. by rewrite Hfold. }
  intros b Hb Hqb. rewrite get_q_value_eq in Hqb. injection Hqb as Hqb.
  destruct (choice_reaches (random r)
              (filter (λ a, NimAI.q_value ai state a = m)
                      (set_iter (Nim.available_actions (items state)))) b)
    as (r' & Hr' & Hch).
  { apply list_elem_of_filter. split; [done|by apply elem_of_set_iter]. }
  exists r'. split; [done|].
  rewrite choose_action_exploit by (by rewrite ?Hr').
  rewrite Hfold. simpl. by rewrite Hch.
Qed.

Lemma greedy_choice_over_all_ties_witness :
  let ai := NimAI.new in
  let r := {| random := 0%Qc; randbelow := λ _, 0%nat |} in
  let state := PyList 0 [0; 2] in
  ∃ m, @NimAI.best_future_reward elements_order state ai = (inr m, ai)
       ∧ @NimAI.choose_action elements_order r state false ai
         = (match choice r (filter (λ a, NimAI.q_value ai state a = m)
                              (elements (Nim.available_actions (items state))))
            with
            | inl e => inl e
            | inr a => inr (Some a)
            end, ai)
       ∧ ∀ b, b ∈ Nim.available_actions (items state) →
              NimAI.get_q_value state b ai = (inr m, ai) →
              ∃ r', random r' = random r
                    ∧ @NimAI.choose_action elements_order r' state false ai
                      = (inr (Some b), ai).
Proof.
  intros ai r state.
  apply (@greedy_choice_over_all_ties elements_order ai r state false);
    [|by left].
  intros Hempty%available_actions_empty.
  apply Forall_cons in Hempty as [_ [Hbad _]%Forall_cons]. lia.
Defined.

(** X9. When [choose_action] explores (the flag is set and the draw is
    below the exploration rate) it hands the list of all legal actions
    to [random.choice], whatever the table holds, so every legal action
    is returned for some draw. *)
Theorem exploration_over_all_actions `{SetIter} (ai : NimAI.t) (r : rand)
    (state : pyseq) :
  Nim.available_actions (items state) ≠ ∅ →
  (random r < NimAI.epsilon ai)%Qc →
  NimAI.choose_action r state true ai
  = (match choice r (set_iter (Nim.available_actions (items state))) with
     | inl e => inl e
     | inr a => inr (Some a)
     end, ai)
  ∧ ∀ b, b ∈ Nim.available_actions (items state) →
         ∃ r', random r' = random r
               ∧ NimAI.choose_action r' state true ai = (inr (Some b), ai).
Proof.
  intros Hne Hdraw. split; [by apply choose_action_explore|].
  intros b Hb.
  destruct (choice_reaches (random r)
              (set_iter (Nim.available_actions (items state))) b)
    as (r' & Hr' & Hch); [by apply elem_of_set_iter|].
  exists r'. split; [done|].
  rewrite choose_action_explore by (by rewrite ?Hr'). by rewrite Hch.
Qed.

Lemma exploration_over_all_actions_witness :
  let ai := NimAI.new in
  let r := {| random := 0%Qc; randbelow := λ _, 0%nat |} in
  let state := PyList 0 [0; 2] in
  @NimAI.choose_action elements_order r state true ai
  = (match choice r (elements (Nim.available_actions (items state))) with
     | inl e => inl e
     | inr a => inr (Some a)
     end, ai)
  ∧ ∀ b, b ∈ Nim.available_actions (items state) →
         ∃ r', random r' = random r
               ∧ @NimAI.choose_action elements_order r' state true ai
                 = (inr (Some b), ai).
Proof.
  intros ai r state.
  apply (@exploration_over_all_actions elements_order ai r state);
    [|by vm_compute].
  intros Hempty%available_actions_empty.
  apply Forall_cons in Hempty as [_ [Hbad _]%Forall_cons]. lia.
Defined.

(** X10. What [choose_action] returns for the piles of a game without a
    winner, in either mode, is an action that [move] accepts on that
    game, and the move takes at least one object off the board: the
    call sequence of [train] and [play] never raises on a board that
    still has objects. *)
Theorem chosen_action_is_accepted `{SetIter} (ai : NimAI.t) (r : rand)
    (g : Nim.t) (addr : nat) (explore : bool) :
  Nim.winner g = None →
  Nim.available_actions (Nim.piles g) ≠ ∅ →
  ∃ a g', NimAI.choose_action r (PyList addr (Nim.piles g)) explore ai
          = (inr (Some a), ai)
          ∧ Nim.move a g = (inr (), g')
          ∧ total (Nim.piles g') < total (Nim.piles g).
Proof.
  intros Hw Hne.
  destruct (choose_action_legal r (PyList addr (Nim.piles g)) explore ai Hne)
    as ([pile count] & Hch & Hlegal).
  simpl in Hlegal.
  apply elem_of_available_actions in Hlegal as (Hp & n & Hn & Hc).
  exists (pile, count), (moved g pile n count).
  split; [done|]. split; [by apply move_ok|].
  simpl. rewrite (total_insert _ _ n) by done. lia.
Qed.

Lemma chosen_action_is_accepted_witness :
  let r := {| random := 0%Qc; randbelow := λ _, 0%nat |} in
  ∃ a g', @NimAI.choose_action elements_order r
            (PyList 0 (Nim.piles Nim.new)) true NimAI.new
          = (inr (Some a), NimAI.new)
          ∧ Nim.move a Nim.new = (inr (), g')
          ∧ total (Nim.piles g') < total (Nim.piles Nim.new).
Proof.
  intros r.
  apply (@chosen_action_is_accepted elements_order NimAI.new r Nim.new 0 true);
    [reflexivity|].
  intros Hempty%available_actions_empty.
  apply Forall_cons in Hempty as [Hbad _]. lia.
Defined.

(** * The training loop *)

Section TrainFacts.
Context `{SetIter}.
Variable draws : nat → rand.
Import Train.

Lemma tbind_inr {A B} (m : T A) (k : A → T B) (st st' : frame) (a : A) :
  m st = (inr a, st') → tbind m k st = k a st'.
Proof. intros Hm. unfold tbind. by rewrite Hm. Qed.

Lemma on_board_nonneg (l : list Z) :
  on_board l → Forall (λ pile, 0 ≤ pile) l.
Proof.
  intros Hl. apply Forall_lookup. intros i x Hx.
  destruct (Forall2_lookup_l _ _ _ _ _ Hl Hx) as (b & _ & Hb). simpl in Hb. lia.
Qed.

Lemma on_board_actions (l : list Z) :
  on_board l → 0 < total l → Nim.available_actions l ≠ ∅.
Proof.
  intros Hl%on_board_nonneg Ht Hempty%available_actions_empty.
  assert (Forall (λ pile, pile = 0) l) as Hz.
  { apply Forall_lookup. intros i x Hx.
    pose proof (proj1 (Forall_lookup _ _) Hl i x Hx).
    pose proof (proj1 (Forall_lookup _ _) Hempty i x Hx). simpl in *. lia. }
  apply total_zero in Hz; [lia|done].
Qed.

Lemma q_value_bounded (ai : NimAI.t) (s : pyseq) (a : action) :
  trained ai →
  (-1 ≤ NimAI.q_value ai s a)%Qc ∧ (NimAI.q_value ai s a ≤ 1)%Qc.
Proof.
  intros (_ & _ & Hb & _). unfold NimAI.q_value.
  destruct (NimAI.q ai !! (tuple s, a)) as [v|] eqn:Hv; simpl.
  - by apply (Hb _ _ Hv).
  - by split.
Qed.

Lemma best_future_bounded (ai : NimAI.t) (s : pyseq) :
  trained ai →
  ∃ f, NimAI.best_future_reward s ai = (inr f, ai)
       ∧ (-1 ≤ f)%Qc ∧ (f ≤ 1)%Qc
       ∧ (Nim.available_actions (items s) = ∅ → f = 0%Qc).
Proof.
  intros Htr.
  destruct (best_future_reward_spec s ai) as (f & Hf & Hzero & Hmax).
  exists f. split; [done|].
  destruct (decide (Nim.available_actions (items s) = ∅)) as [Hempty|Hne].
  - rewrite (Hzero Hempty). by repeat split.
  - destruct (Hmax Hne) as [(a & _ & <-) _].
    destruct (q_value_bounded ai s a Htr). by repeat split.
Qed.

Lemma update_trained (ai : NimAI.t) (s : pyseq) (a : action)
    (new_state : pyseq) (reward : Qc) :
  trained ai →
  on_board (items s) → a ∈ Nim.available_actions (items s) →
  reward = 0%Qc
  ∨ (Nim.available_actions (items new_state) = ∅
     ∧ (reward = 1%Qc ∨ reward = (-1)%Qc)) →
  ∃ ai', NimAI.update s a new_state reward ai = (inr (), ai') ∧ trained ai'.
Proof.
  intros Htr Hs Ha Hreward.
  destruct (update_eq s a new_state reward ai) as (future & Hbest & Hupd).
  destruct (best_future_bounded ai new_state Htr) as (f & Hf & Hlo & Hhi & Hz).
  rewrite Hf in Hbest. injection Hbest as <-.
  eexists. split; [done|].
  destruct (q_value_bounded ai s a Htr) as [Hqlo Hqhi].
  destruct Htr as (Halpha & Heps & Hb & Hk).
  assert ((-1 ≤ reward + f)%Qc ∧ (reward + f ≤ 1)%Qc) as [Htlo Hthi].
  { destruct Hreward as [-> | [Hempty [-> | ->]]].
    - by rewrite Qcplus_0_l.
    - rewrite (Hz Hempty), Qcplus_0_r. by split.
    - rewrite (Hz Hempty), Qcplus_0_r. by split. }
  split; [done|]. split; [done|]. simpl. split.
  - intros k v. rewrite lookup_insert. case_decide as Hkey.
    + intros [= <-]. apply step_within; try done; by rewrite Halpha.
    + apply Hb.
  - intros s' a'. rewrite lookup_insert. case_decide as Hkey.
    + injection Hkey as <- <-. by intros _.
    + apply Hk.
Qed.

Lemma zero_table_best_future (ai : NimAI.t) (s : pyseq) :
  zero_table (NimAI.q ai) ∨ Nim.available_actions (items s) = ∅ →
  NimAI.best_future_reward s ai = (inr 0%Qc, ai).
Proof.
  intros Hcase.
  destruct (best_future_reward_spec s ai) as (f & Hf & Hzero & Hmax).
  rewrite Hf. do 2 f_equal.
  destruct (decide (Nim.available_actions (items s) = ∅)) as [Hempty|Hne];
    [by apply Hzero|].
  destruct Hcase as [Hz|?]; [|done].
  destruct (Hmax Hne) as [(a & _ & <-) _]. unfold NimAI.q_value.
  destruct (NimAI.q ai !! (tuple s, a)) as [v|] eqn:Hv; [|done].
  simpl. by apply (Hz _ _ Hv).
Qed.

Lemma update_table (ai ai' : NimAI.t) (s : pyseq) (a : action)
    (new_state : pyseq) (reward : Qc) :
  NimAI.q_value ai s a = 0%Qc →
  zero_table (NimAI.q ai) ∨ Nim.available_actions (items new_state) = ∅ →
  NimAI.update s a new_state reward ai = (inr (), ai') →
  NimAI.q ai' = <[(tuple s, a) := (NimAI.alpha ai * reward)%Qc]> (NimAI.q ai).
Proof.
  intros Hold Hcase Hupd.
  destruct (update_eq s a new_state reward ai) as (future & Hbest & Heq).
  rewrite zero_table_best_future in Hbest by done. injection Hbest as <-.
  rewrite Heq in Hupd. injection Hupd as <-. simpl. rewrite Hold.
  f_equal. ring.
Qed.

Lemma zero_table_insert (table : gmap (list Z * action) Qc)
    (key : list Z * action) :
  zero_table table → zero_table (<[key := 0%Qc]> table).
Proof.
  intros Hz key' v. rewrite lookup_insert. case_decide; [by intros [= <-]|].
  apply Hz.
Qed.

Lemma choose_ok (state : pyseq) (explore : bool) (st : frame) :
  Nim.available_actions (items state) ≠ ∅ →
  ∃ a, choose draws state explore st
       = (inr (Some a), set_calls (S (calls st)) st)
       ∧ a ∈ Nim.available_actions (items state).
Proof.
  intros Hne.
  destruct (choose_action_legal (draws (calls st)) state explore (player st) Hne)
    as (a & Hch & Ha).
  exists a. split; [|done]. unfold choose, on_player. simpl. by rewrite Hch.
Qed.

Lemma getitem_last_ok (p : Z) (slot : option (pyseq * action)) (st : frame) :
  last st !! p = Some slot → getitem_last p st = (inr slot, st).
Proof. intros Hp. unfold getitem_last, tbind, locals. by rewrite Hp. Qed.

Lemma setitem_last_ok (p : Z) (slot : option (pyseq * action)) (s : pyseq)
    (a : action) (st : frame) :
  last st !! p = Some slot →
  setitem_last p s a st = (inr (), set_last (<[p := Some (s, a)]> (last st)) st).
Proof.
  intros Hp. unfold setitem_last.
  by rewrite (tbind_inr _ _ st st slot) by (by apply getitem_last_ok).
Qed.

Lemma on_game_ok {A} (m : M Nim.t A) (st : frame) (a : A) (g : Nim.t) :
  m (game st) = (inr a, g) → on_game m st = (inr a, set_game g st).
Proof. intros Hm. unfold on_game. by rewrite Hm. Qed.

Lemma on_player_ok {A} (m : M NimAI.t A) (st : frame) (a : A) (ai : NimAI.t) :
  m (player st) = (inr a, ai) → on_player m st = (inr a, set_player ai st).
Proof. intros Hm. unfold on_player. by rewrite Hm. Qed.

(** A single move on the board of [Nim()] leaves objects behind. *)
Lemma first_move_not_final (k : nat) (v : Z) :
  Nim.all_zero (<[k := v]> (Nim.piles Nim.new)) = false.
Proof.
  destruct (Nim.all_zero _) eqn:Hz; [|done].
  apply all_zero_Forall in Hz.
  destruct k as [|[|k]].
  - by apply Forall_cons in Hz as [_ [? _]%Forall_cons].
  - by apply Forall_cons in Hz as [? _].
  - by apply Forall_cons in Hz as [? _].
Qed.

Lemma other_player_twice (p : Z) :
  p = 0 ∨ p = 1 →
  Nim.other_player p ≠ p
  ∧ (Nim.other_player p = 0 ∨ Nim.other_player p = 1)
  ∧ Nim.other_player (Nim.other_player p) = p.
Proof. intros [-> | ->]; unfold Nim.other_player; simpl; lia. Qed.

Local Ltac unfold_frames :=
  repeat match goal with x := _ : frame |- _ => subst x end;
  repeat match goal with x := _ : Nim.t |- _ => subst x end.

Lemma game_loop_spec (fuel : nat) (st : frame) :
  at_loop_head st →
  total (Nim.piles (game st)) ≤ Z.of_nat fuel →
  ∃ st', game_loop draws fuel st = (inr (Some ()), st')
         ∧ trained (player st') ∧ stdout st' = stdout st
         ∧ (zero_table (NimAI.q (player st)) →
            first_game_table (NimAI.q (player st'))).
Proof.
  revert st. induction fuel as [|fuel IH];
    intros st (Hw & Hboard & Htot & Hp & Hlast & Hfirst & Htr & Hprev) Hfuel;
    [lia|].
  pose proof (on_board_actions _ Hboard Htot) as Hne.
  destruct (choose_ok (PyList 0 (Nim.piles (game st))) true st Hne)
    as ([pile count] & Hch & Hlegal).
  simpl in Hlegal.
  pose proof Hlegal as (Hpile & n & Hn & Hc)%elem_of_available_actions.
  destruct (other_player_twice _ Hp) as (Hqp & Hq & Hqq).
  destruct (Hlast _ Hp) as (slot & Hslot & _).
  destruct (Hlast _ Hq) as (slotq & Hslotq & Hgoodq).
  set (p := Nim.player (game st)) in *.
  set (q := Nim.other_player p) in *.
  set (state := PyList (2 * calls st + 1) (Nim.piles (game st))).
  set (st1 := set_calls (S (calls st)) st).
  set (st2 := set_last (<[p := Some (state, (pile, count))]> (last st1)) st1).
  set (g' := moved (game st) pile n count).
  set (st3 := set_game g' st2).
  set (new_state := PyList (2 * calls st3) (Nim.piles (game st3))).
  cbn [game_loop].
  rewrite (tbind_inr _ _ st st st) by done. cbv beta.
  rewrite (tbind_inr _ _ st st1 (Some (pile, count))) by done. cbv beta match.
  rewrite (tbind_inr _ _ st1 st1 slot) 
    by (apply getitem_last_ok; unfold_frames; exact Hslot).
  cbv beta.
  rewrite (tbind_inr _ _ st1 st2 ())
    by (apply (setitem_last_ok _ slot); unfold_frames; exact Hslot).
  cbv beta.
  rewrite (tbind_inr _ _ st2 st3 ())
    by (apply on_game_ok; apply (move_ok _ _ _ n);
        [exact Hw|done|exact Hn|done]).
  cbv beta.
  rewrite (tbind_inr _ _ st3 st3 st3) by done. cbv beta.
  fold new_state.
  assert (last st3 !! q = Some slotq) as Hslotq3.
  { unfold_frames. simpl. by rewrite lookup_insert_ne. }
  assert (on_board (Nim.piles g')) as Hboard'
    by (by apply moved_within).
  destruct (Nim.all_zero (Nim.piles g')) eqn:Hz.
  - (* the move emptied the board *)
    assert (Nim.winner (game st3) = Some q) as Hw3.
    { simpl in *. by rewrite Hz. }
    rewrite bool_decide_eq_true_2 by (by rewrite Hw3).
    assert (Nim.available_actions (items new_state) = ∅) as Hend.
    { apply available_actions_empty. apply all_zero_Forall in Hz.
      eapply Forall_impl; [exact Hz|]. simpl. lia. }
    destruct (update_trained (player st3) state (pile, count) new_state
                (-1)%Qc) as (ai1 & Hupd1 & Htr1); [done|done|done|auto|].
    set (st4 := set_player ai1 st3).
    rewrite (tbind_inr _ _ st3 st4 ()) by (by apply on_player_ok).
    cbv beta.
    rewrite (tbind_inr _ _ st4 st4 slotq) by (by apply getitem_last_ok).
    cbv beta.
    destruct slotq as [[s b]|].
    + destruct (Hgoodq s b eq_refl) as [Hs Hb].
      destruct (update_trained (player st4) s b new_state 1%Qc)
        as (ai2 & Hupd2 & Htr2); [done|done|done|auto|].
      rewrite (tbind_inr _ _ st4 (set_player ai2 st4) ())
        by (by apply on_player_ok).
      cbv beta. eexists. split; [reflexivity|]. split; [done|].
      split; [done|]. intros Hzero.
      destruct (Hprev s b Hslotq) as (m & Hm & Hpiles).
      destruct b as [bi bj]. simpl in Hm, Hpiles.
      pose proof Hb as (_ & m' & Hm' & Hbc)%elem_of_available_actions.
      assert (m' = m) as -> by congruence.
      assert (total (Nim.piles (game st)) = count) as Hall.
      { pose proof (on_board_nonneg _ Hboard') as Hnn.
        apply all_zero_Forall, total_zero in Hz; [|done].
        unfold g' in Hz. simpl in Hz.
        rewrite (total_insert _ _ n) in Hz by done. lia. }
      assert (tuple s ≠ tuple state) as Hss.
      { intros Heq. simpl in Heq.
        assert (total (Nim.piles (game st)) = total (items s) - bj) as Ht.
        { rewrite Hpiles, (total_insert _ _ m) by done. lia. }
        unfold tuple in Heq. rewrite <- Heq in Ht. lia. }
      destruct Htr as (Halpha & _). destruct Htr1 as (Halpha1 & _).
      assert (NimAI.q_value (player st) state (pile, count) = 0%Qc) as Hold1.
      { unfold NimAI.q_value.
        destruct (NimAI.q (player st) !! (tuple state, (pile, count)))
          as [v|] eqn:Hv; [|done]. simpl. by apply (Hzero _ _ Hv). }
      assert (NimAI.q ai1
              = <[(tuple state, (pile, count)) :=
                    (NimAI.alpha (player st) * -1)%Qc]>
                  (NimAI.q (player st))) as Hq1.
      { apply (update_table (player st) ai1 state (pile, count) new_state
                 (-1)%Qc); [done|by right|exact Hupd1]. }
      assert (NimAI.q ai2
              = <[(tuple s, (bi, bj)) := (NimAI.alpha ai1 * 1)%Qc]>
                  (NimAI.q ai1)) as Hq2.
      { apply (update_table ai1 ai2 s (bi, bj) new_state 1%Qc);
          [|by right|exact Hupd2].
        unfold NimAI.q_value. rewrite Hq1.
        rewrite lookup_insert_ne by (by intros [= ? _]).
        destruct (NimAI.q (player st) !! (tuple s, (bi, bj)))
          as [v|] eqn:Hv; [|done]. simpl. by apply (Hzero _ _ Hv). }
      exists (Nim.piles (game st)), (pile, count), (items s), (bi, bj),
        (NimAI.q (player st)).
      split; [done|]. split.
      { change (player (set_player ai2 st4)) with ai2.
        rewrite Hq2, Hq1, Halpha1, Halpha.
        replace (NimAI.alpha NimAI.new * 1)%Qc with (Q2Qc (1 # 2))
          by (apply Qc_is_canon; reflexivity).
        by replace (NimAI.alpha NimAI.new * -1)%Qc with (Q2Qc (-1 # 2))
          by (apply Qc_is_canon; reflexivity). }
      split; [done|]. split; [done|]. split; [done|].
      exists m. by split.
    + exfalso. unfold g' in Hz. simpl in Hz. rewrite (Hfirst Hslotq) in Hz.
      by rewrite first_move_not_final in Hz.
  - (* objects are left *)
    assert (Nim.winner (game st3) = None) as Hw3.
    { simpl in *. by rewrite Hz. }
    rewrite bool_decide_eq_false_2 by (rewrite Hw3; by intros []).
    rewrite (tbind_inr _ _ st3 st3 slotq) by (by apply getitem_last_ok).
    cbv beta.
    assert (∃ st4, match slotq with
                   | Some (s, b) => on_player (NimAI.update s b new_state 0%Qc)
                   | None => tret ()
                   end st3 = (inr (), st4)
                   ∧ game st4 = game st3 ∧ last st4 = last st3
                   ∧ stdout st4 = stdout st3 ∧ trained (player st4)
                   ∧ (zero_table (NimAI.q (player st)) →
                      zero_table (NimAI.q (player st4))))
      as (st4 & Hstep & Hg4 & Hl4 & Ho4 & Htr4 & Hz4).
    { destruct slotq as [[s b]|].
      - destruct (Hgoodq s b eq_refl) as [Hs Hb].
        destruct (update_trained (player st3) s b new_state 0%Qc)
          as (ai1 & Hupd1 & Htr1); [done|done|done|auto|].
        exists (set_player ai1 st3). split; [by apply on_player_ok|].
        split; [done|]. split; [done|]. split; [done|]. split; [done|].
        intros Hzero. simpl.
        rewrite (update_table (player st3) ai1 s b new_state 0%Qc);
          [|simpl|by left|done].
        + rewrite Qcmult_0_r. by apply zero_table_insert.
        + unfold NimAI.q_value.
          destruct (NimAI.q (player st) !! (tuple s, b))
            as [v|] eqn:Hv; [|done]. simpl. by apply (Hzero _ _ Hv).
      - exists st3. split; [done|]. split; [done|]. split; [done|].
        split; [done|]. split; [exact Htr|done]. }
    rewrite (tbind_inr _ _ st3 st4 ()) by done. cbv beta.
    assert (total (Nim.piles g') = total (Nim.piles (game st)) - count) as Ht'.
    { simpl. rewrite (total_insert _ _ n) by done. lia. }
    destruct (IH st4) as (st' & Hloop & Htr' & Hout & Hfirst').
    + unfold at_loop_head. rewrite Hg4, Hl4.
      split; [done|]. split; [done|]. split.
      { pose proof (on_board_nonneg _ Hboard') as Hnn.
        pose proof (total_nonneg _ Hnn) as Hge.
        destruct (decide (total (Nim.piles g') = 0)) as [Hzero|Hpos].
        - apply total_zero in Hzero; [|done].
          apply all_zero_Forall in Hzero. congruence.
        - change (Nim.piles (game st3)) with (Nim.piles g'). lia. }
      split; [done|]. split.
      { intros p' Hp'. destruct (decide (p' = p)) as [->|Hne'].
        - exists (Some (state, (pile, count))). simpl.
          rewrite lookup_insert_eq. split; [done|].
          by intros ? ? [= <- <-].
        - destruct (Hlast p' Hp') as (slot' & Hslot' & Hgood').
          exists slot'. simpl. by rewrite lookup_insert_ne. }
      split.
      { simpl. fold p q. rewrite Hqq, lookup_insert_eq. by intros [=]. }
      split; [done|].
      intros s b. simpl. fold p q. rewrite Hqq, lookup_insert_eq.
      intros [= <- <-]. exists n. by split.
    + rewrite Hg4. simpl game. lia.
    + exists st'. split; [done|]. split; [done|].
      split; [by rewrite Hout, Ho4|]. intros Hzero. by apply Hfirst', Hz4.
Qed.

Lemma trained_new : trained NimAI.new.
Proof.
  split; [done|]. split; [done|]. simpl. split.
  - intros k v. by rewrite lookup_empty.
  - intros s a. rewrite lookup_empty. by intros [? ?].
Qed.

Lemma new_game_at_loop_head (st : frame) :
  trained (player st) →
  at_loop_head (set_last {[ 0 := None; 1 := None ]} (set_game Nim.new st)).
Proof.
  intros Htr. split; [done|]. split; [repeat constructor; lia|].
  split; [done|]. split; [by left|]. split; [|by split].
  intros p [-> | ->]; exists None; (split; [done|by intros ? ? [=]]).
Qed.

Lemma for_games_spec (k : nat) (indices : list Z) (st : frame) :
  trained (player st) →
  ∃ st', for_games draws (16 + k) indices st = (inr (Some ()), st')
         ∧ trained (player st')
         ∧ stdout st'
           = stdout st
             ++ ((λ i, "Playing training game " +:+ pretty (i + 1)) <$> indices).
Proof.
  revert st. induction indices as [|i rest IH]; intros st Htr.
  - exists st. split; [done|]. split; [done|]. by rewrite app_nil_r.
  - set (line := "Playing training game " +:+ pretty (i + 1)).
    set (st1 := set_stdout (stdout st ++ [line]) st).
    set (st2 := set_game Nim.new st1).
    set (st3 := set_last {[ 0 := None; 1 := None ]} st2).
    destruct (game_loop_spec (16 + k) st3) as (st4 & Hloop & Htr4 & Hout4 & _).
    { by apply new_game_at_loop_head. }
    { simpl. lia. }
    destruct (IH st4 Htr4) as (st' & Hrest & Htr' & Hout').
    exists st'. split; [|split; [done|]].
    + cbn [for_games].
      rewrite (tbind_inr _ _ st st1 ()) by done. cbv beta.
      rewrite (tbind_inr _ _ st1 st2 ()) by done. cbv beta.
      rewrite (tbind_inr _ _ st2 st3 ()) by done. cbv beta.
      rewrite (tbind_inr _ _ st3 st4 (Some ())) by done. done.
    + rewrite Hout', Hout4. simpl. by rewrite <- app_assoc.
Qed.

Lemma train_spec (k : nat) (n : Z) (st : frame) :
  ∃ ai st', train draws (16 + k) n st = (inr (Some ai), st')
            ∧ trained ai
            ∧ stdout st'
              = stdout st
                ++ ((λ i, "Playing training game " +:+ pretty (i + 1))
                      <$> range 0 n)
                ++ ["Done training"].
Proof.
  set (st1 := set_player NimAI.new st).
  destruct (for_games_spec k (range 0 n) st1 trained_new)
    as (st2 & Hgames & Htr & Hout).
  exists (player st2), (set_stdout (stdout st2 ++ ["Done training"]) st2).
  split; [|split; [done|]].
  - unfold train.
    rewrite (tbind_inr _ _ st st1 ()) by done. cbv beta.
    rewrite (tbind_inr _ _ st1 st2 (Some ())) by done. done.
  - simpl. rewrite Hout. simpl. by rewrite <- app_assoc.
Qed.

Lemma train_one_spec (k : nat) (st : frame) :
  ∃ ai st', train draws (16 + k) 1 st = (inr (Some ai), st')
            ∧ first_game_table (NimAI.q ai).
Proof.
  set (st0 := set_player NimAI.new st).
  set (st1 := set_stdout (stdout st0 ++ ["Playing training game 1"]) st0).
  set (st2 := set_game Nim.new st1).
  set (st3 := set_last {[ 0 := None; 1 := None ]} st2).
  destruct (game_loop_spec (16 + k) st3) as (st4 & Hloop & _ & _ & Hfirst).
  { apply new_game_at_loop_head, trained_new. }
  { simpl. lia. }
  exists (player st4), (set_stdout (stdout st4 ++ ["Done training"]) st4).
  split.
  - unfold train.
    rewrite (tbind_inr _ _ st st0 ()) by done. cbv beta.
    change (range 0 1) with [0]. cbn [for_games].
    rewrite (tbind_inr _ _ st0 st4 (Some ())); [done|].
    rewrite (tbind_inr _ _ st0 st1 ()) by done. cbv beta.
    rewrite (tbind_inr _ _ st1 st2 ()) by done. cbv beta.
    rewrite (tbind_inr _ _ st2 st3 ()) by done. cbv beta.
    by rewrite (tbind_inr _ _ st3 st4 (Some ())) by done.
  - apply Hfirst. intros key v. simpl. by rewrite lookup_empty.
Qed.

End TrainFacts.

(** X11. [train(n)] never raises and every game it plays ends within
    16 iterations of its [while] loop, whatever the random draws: it
    returns a learner with the rates of [NimAI()], after printing one
    line per game and then "Done training".  For [n ≤ 0] no game is
    played and the learner returned is a new one. *)
Theorem train_completes `{SetIter} (draws : nat → rand) (k : nat) (n : Z)
    (st0 : Train.frame) :
  ∃ ai st,
    Train.train draws (16 + k) n st0 = (inr (Some ai), st)
    ∧ Train.stdout st
      = Train.stdout st0
        ++ ((λ i, "Playing training game " +:+ pretty (i + 1)) <$> range 0 n)
        ++ ["Done training"]
    ∧ NimAI.alpha ai = Q2Qc (1 # 2)
    ∧ NimAI.epsilon ai = Q2Qc (1 # 10)
    ∧ (n ≤ 0 → ai = NimAI.new).
Proof.
  destruct (train_spec draws k n st0) as (ai & st & Htrain & Htr & Hout).
  exists ai, st. split; [done|]. split; [done|].
  destruct Htr as (Halpha & Heps & _). split; [done|]. split; [done|].
  intros Hn. revert Htrain. unfold Train.train, range, seqZ.
  replace (Z.to_nat (n - 0)) with 0%nat by lia. simpl.
  unfold Train.tbind. simpl. by intros [= <- _].
Qed.


(** X13. Every key in the table of the learner [train] returns is a
    board of four piles, each between 0 and its size on the board of
    [Nim()], together with an action that is legal on that board. *)
Theorem train_records_legal_moves `{SetIter} (draws : nat → rand) (k : nat)
    (n : Z) (st0 : Train.frame) :
  ∃ ai st,
    Train.train draws (16 + k) n st0 = (inr (Some ai), st)
    ∧ ∀ s a, (s, a) ∈ dom (NimAI.q ai) →
             Forall2 (λ x b, 0 ≤ x ≤ b) s [1; 3; 5; 7]
             ∧ a ∈ Nim.available_actions s.
Proof.
  destruct (train_spec draws k n st0) as (ai & st & Htrain & Htr & _).
  exists ai, st. split; [done|].
  intros s a Hin%elem_of_dom. destruct Htr as (_ & _ & _ & Hk).
  by apply Hk.
Qed.

(** Two games of [train], with [elements] as iteration order and draws
    that never explore. *)
Example train_two_games :
  let draws := λ i, {| random := Q2Qc (1 # 2); randbelow := λ _, i |} in
  let st0 := {| Train.player := NimAI.init 0%Qc 0%Qc;
                Train.game := Nim.init [];
                Train.last := ∅;
                Train.stdout := [];
                Train.calls := 0 |} in
  let st := (@Train.train elements_order draws 16 2 st0).2 in
  Train.stdout st
  = ["Playing training game 1"; "Playing training game 2"; "Done training"]
  ∧ Train.calls st = 14%nat
  ∧ size (NimAI.q (Train.player st)) = 14%nat
  ∧ NimAI.q (Train.player st) !! ([0; 0; 1; 0], (2, 1)) = Some (Q2Qc (-1 # 2))
  ∧ NimAI.q (Train.player st) !! ([0; 3; 0; 0], (1, 2)) = Some (Q2Qc (1 # 2)).
Proof.
  intros draws st0 st. subst st. repeat split; by vm_compute.
Qed.

(** X14. One game of [train] on a new learner gives reward to two
    moves: the table it returns holds -1/2 for the move that emptied
    the board (it takes all that was left), 1/2 for the move of the
    other player just before it, the one that led to that board, and 0
    for every other move it recorded. *)
Theorem train_first_game `{SetIter} (draws : nat → rand) (k : nat)
    (st0 : Train.frame) :
  ∃ ai st s a s' b,
    Train.train draws (16 + k) 1 st0 = (inr (Some ai), st)
    ∧ NimAI.get_q_value (PyTuple s) a ai = (inr (Q2Qc (-1 # 2)), ai)
    ∧ NimAI.get_q_value (PyTuple s') b ai = (inr (Q2Qc (1 # 2)), ai)
    ∧ (∀ key v, NimAI.q ai !! key = Some v →
                key = (s, a) ∨ key = (s', b) ∨ v = 0%Qc)
    ∧ a ∈ Nim.available_actions s ∧ total s = a.2
    ∧ b ∈ Nim.available_actions s'
    ∧ (∀ pl, ∃ g,
         Nim.move b {| Nim.piles := s'; Nim.player := pl; Nim.winner := None |}
         = (inr (), g)
         ∧ Nim.piles g = s).
Proof.
  destruct (train_one_spec draws k st0)
    as (ai & st & Htrain & s & a & s' & [bi bj] & table0 & Hzero & Htable
        & Ha & Hall & Hb & n & Hn & Hs).
  simpl in Hn, Hs.
  pose proof Hb as (Hbi & n' & Hn' & Hbj)%elem_of_available_actions.
  assert (n' = n) as -> by congruence.
  assert (s ≠ s') as Hne.
  { intros Heq. assert (total s = total s' - bj) as Ht.
    { rewrite Hs, (total_insert _ _ n) by done. lia. }
    rewrite Heq in Ht. lia. }
  exists ai, st, s, a, s', (bi, bj). split; [done|].
  split; [|split; [|split]].
  - rewrite get_q_value_eq. unfold NimAI.q_value. simpl. rewrite Htable.
    rewrite lookup_insert_ne by (by intros [= ? _]).
    by rewrite lookup_insert_eq.
  - rewrite get_q_value_eq. unfold NimAI.q_value. simpl. rewrite Htable.
    by rewrite lookup_insert_eq.
  - intros key v. rewrite Htable, !lookup_insert.
    case_decide; [by right; left|]. case_decide; [by left|].
    intros Hv. right; right. by apply (Hzero _ _ Hv).
  - split; [done|]. split; [done|]. split; [done|].
    intros pl. eexists. split; [by apply (move_ok _ _ _ n)|]. by rewrite Hs.
Qed.
